(** * Semantic versions: parsing, rendering, incrementing and ordering

    A shallow embedding of [lib/version/semver.go].  A Go [uint64] is a [Z]
    with its wrap-around written out, a Go [string] is a [string] (a sequence
    of bytes), a slice is a [list] read with [!!] and written with
    [<[ i := x ]>], and a run-time panic is an explicit outcome of the
    operations that can raise one. *)

From Stdlib Require Import ZArith Lia Ascii.
From Stdlib Require String.
From stdpp Require Import base numbers list strings.

Local Open Scope Z_scope.

(** ** Machine integers *)

Module U64.

Definition modulus : Z := 2 ^ 64.

(** [math.MaxUint64]. *)
Definition max : Z := modulus - 1.

Definition in_range (x : Z) : Prop := 0 <= x <= max.

(** Reduction of a mathematical result to the 64 bits that are kept. *)
Definition wrap (x : Z) : Z := x mod modulus.

(** [x++] and [x + 1] on a [uint64]. *)
Definition incr (x : Z) : Z := wrap (x + 1).

End U64.

(** ** Bytes and strings *)

Module Bytes.

Definition is_digit (c : ascii) : bool :=
  let n := Z.of_nat (nat_of_ascii c) in (48 <=? n) && (n <=? 57).

Definition is_letter (c : ascii) : bool :=
  let n := Z.of_nat (nat_of_ascii c) in
  ((65 <=? n) && (n <=? 90)) || ((97 <=? n) && (n <=? 122)).

(** [c - '0'] for a digit [c]. *)
Definition digit_val (c : ascii) : Z := Z.of_nat (nat_of_ascii c) - 48.

(** ['0' + d]. *)
Definition digit_char (d : Z) : ascii := ascii_of_nat (Z.to_nat (48 + d)).

Fixpoint all (p : ascii -> bool) (s : string) : bool :=
  match s with
  | EmptyString => true
  | String c r => p c && all p r
  end.

Definition is_empty (s : string) : bool :=
  match s with EmptyString => true | String _ _ => false end.

(** [strings.Join(l, sep)] for a one-byte separator. *)
Fixpoint join (sep : ascii) (l : list string) : string :=
  match l with
  | [] => EmptyString
  | [x] => x
  | x :: r => x +:+ String sep (join sep r)
  end.

(** [strings.Split(s, sep)] for a one-byte separator: always at least one
    piece, and the pieces contain no separator. *)
Fixpoint split (sep : ascii) (s : string) : list string :=
  match s with
  | EmptyString => [EmptyString]
  | String c r =>
      if Ascii.eqb c sep then EmptyString :: split sep r
      else match split sep r with
           | p :: ps => String c p :: ps
           | [] => [String c EmptyString]
           end
  end.

(** [strings.Cut(s, sep)]: the text before the first separator and, when there
    is one, the text after it. *)
Fixpoint cut (sep : ascii) (s : string) : string * option string :=
  match s with
  | EmptyString => (EmptyString, None)
  | String c r =>
      if Ascii.eqb c sep then (EmptyString, Some r)
      else let '(a, b) := cut sep r in (String c a, b)
  end.

End Bytes.

(** ** [strconv] *)

Module strconv.

(** The two errors of [strconv.ParseUint]. *)
Inductive NumError : Type := ErrSyntax | ErrRange.

(** [cutoff] of [ParseUint]: the least [n] for which [n * 10] overflows. *)
Definition cutoff : Z := U64.max / 10 + 1.

(** The digit loop of [ParseUint(s, 10, 64)], [n] being the value read so
    far.  A byte that is no digit is a syntax error with value 0; a value
    that leaves the 64 bits is a range error with value [MaxUint64]. *)
Fixpoint parse_loop (n : Z) (s : string) : Z * option NumError :=
  match s with
  | EmptyString => (n, None)
  | String c r =>
      if negb (Bytes.is_digit c) then (0, Some ErrSyntax)
      else if cutoff <=? n then (U64.max, Some ErrRange)
      else
        let n1 := n * 10 + Bytes.digit_val c in
        if U64.max <? n1 then (U64.max, Some ErrRange)
        else parse_loop n1 r
  end.

Definition ParseUint (s : string) : Z * option NumError :=
  match s with
  | EmptyString => (0, Some ErrSyntax)
  | _ => parse_loop 0 s
  end.

(** The digit loop of [FormatUint(u, 10)]: digits are produced from the
    least significant one, each put in front of [acc].  A [uint64] has at
    most 20 decimal digits, which bounds the number of turns. *)
Fixpoint format_loop (turns : nat) (u : Z) (acc : string) : string :=
  match turns with
  | O => acc
  | S t =>
      if u <? 10 then String (Bytes.digit_char u) acc
      else format_loop t (u / 10) (String (Bytes.digit_char (u mod 10)) acc)
  end.

Definition FormatUint (u : Z) : string := format_loop 20 u EmptyString.

(** [AppendUint(buf, u, 10)]. *)
Definition AppendUint (buf : string) (u : Z) : string := buf +:+ FormatUint u.

End strconv.

(** ** Identifiers

    [Identifier], [NewIdentifier], [parseIdentifiers] and the comparison of
    identifiers are declared in another file of the package; [semver.go] uses
    the fields [Raw], [IsNumeric] and [Num], the constructor and [Compare]. *)

Record Identifier : Type := mkIdentifier {
  Raw : string;        (* the token as written *)
  IsNumeric : bool;    (* the token is a numeric identifier *)
  Num : Z              (* its value, a uint64; meaningful when IsNumeric *)
}.

(** The digit groups [0|[1-9]\d*] of the grammar: digits only, not empty, and
    no zero in front of another digit. *)
Definition numeric_form (s : string) : bool :=
  match s with
  | EmptyString => false
  | String c EmptyString => Bytes.is_digit c
  | String c r =>
      Bytes.is_digit c && negb (Ascii.eqb c "0"%char) && Bytes.all Bytes.is_digit r
  end.

(** Modelled from the spec: [NewIdentifier] is not in [semver.go].  It stores
    the token as [Raw], marks it numeric iff it consists of ASCII digits only
    in numeric form, and keeps the parsed magnitude. *)
Definition NewIdentifier (token : string) : Identifier :=
  {| Raw := token;
     IsNumeric := numeric_form token;
     Num := if numeric_form token then fst (strconv.ParseUint token) else 0 |}.

(** Modelled from the spec: [parseIdentifiers] is not in [semver.go].  It
    splits the text on [.] into a sequence of identifiers. *)
Definition parseIdentifiers (s : string) : list Identifier :=
  NewIdentifier <$> Bytes.split "."%char s.

(** The result of a three-way comparison as a Go [int]. *)
Definition int_of_comparison (c : comparison) : Z :=
  match c with Lt => -1 | Eq => 0 | Gt => 1 end.

(** Modelled from the spec: [Identifier.Compare] is not in [semver.go].
    Numeric identifiers compare by value, a numeric identifier is below every
    other one, and two others compare as byte strings. *)
Definition Identifier_Compare (a b : Identifier) : Z :=
  match IsNumeric a, IsNumeric b with
  | true, true => int_of_comparison (Num a ?= Num b)
  | true, false => -1
  | false, true => 1
  | false, false => int_of_comparison (String.compare (Raw a) (Raw b))
  end.

(** ** The grammar

    Modelled from the spec: the regular expression [VerReg] is a constant of
    another file.  It is the semantic-versioning grammar, anchored at both
    ends, with five groups: major, minor, patch (digit groups in numeric
    form), the pre-release text (identifiers joined by [.], each of letters,
    digits and [-], a digits-only one in numeric form) and the build text
    (identifiers joined by [.], each of letters, digits and [-]). *)
Module VerReg.

Definition ident_char (c : ascii) : bool :=
  Bytes.is_digit c || Bytes.is_letter c || Ascii.eqb c "-"%char.

Definition build_ident (s : string) : bool :=
  negb (Bytes.is_empty s) && Bytes.all ident_char s.

Definition prerelease_ident (s : string) : bool :=
  build_ident s && (negb (Bytes.all Bytes.is_digit s) || numeric_form s).

Definition idents_ok (p : string -> bool) (o : option string) : bool :=
  match o with
  | None => true
  | Some s => forallb p (Bytes.split "."%char s)
  end.

(** [reg.FindStringSubmatch(s)]: the whole match and the five groups, an
    absent group being the empty string; [nil] when [s] does not match. *)
Definition FindStringSubmatch (s : string) : list string :=
  let '(front, bld) := Bytes.cut "+"%char s in
  let '(core, prl) := Bytes.cut "-"%char front in
  match Bytes.split "."%char core with
  | [ma; mi; pa] =>
      if numeric_form ma && numeric_form mi && numeric_form pa
         && idents_ok prerelease_ident prl && idents_ok build_ident bld
      then [s; ma; mi; pa; default EmptyString prl; default EmptyString bld]
      else []
  | _ => []
  end.

(** [reg.MatchString(s)]. *)
Definition MatchString (s : string) : bool :=
  match FindStringSubmatch s with [] => false | _ => true end.

End VerReg.

(** ** Versions *)

Record version : Type := mkVersion {
  major : Z;                      (* uint64 *)
  minor : Z;                      (* uint64 *)
  patch : Z;                      (* uint64 *)
  preRelease : list Identifier;
  build : list Identifier
}.

Inductive ReleaseType : Type :=
  | Major | Minor | Patch | PreMajor | PreMinor | PrePatch | PreRelease | pre.

(** [version{}]. *)
Definition zero_version : version := mkVersion 0 0 0 [] [].

Definition well_formed (v : version) : Prop :=
  U64.in_range (major v) /\ U64.in_range (minor v) /\ U64.in_range (patch v).

(** ** Methods on a receiver

    A method with receiver [v *version] is a computation on the stored
    version: it returns a value or stops with a run-time panic, and in both
    cases leaves a store behind. *)

Inductive panic : Type :=
  | IndexOutOfRange (i : Z) (len : nat).

Inductive result (A : Type) : Type :=
  | Ok (a : A)
  | Fault (p : panic).
Arguments Ok {A} a.
Arguments Fault {A} p.

Definition Op (A : Type) : Type := version -> result A * version.

#[global] Instance Op_ret : MRet Op := fun A a v => (Ok a, v).
#[global] Instance Op_bind : MBind Op := fun A B f m v =>
  match m v with
  | (Ok a, v') => f a v'
  | (Fault p, v') => (Fault p, v')
  end.

Definition gets {A} (f : version -> A) : Op A := fun v => (Ok (f v), v).
Definition modify (f : version -> version) : Op unit := fun v => (Ok tt, f v).

(** [when c { body }]. *)
Definition when (c : bool) (body : Op unit) : Op unit :=
  if c then body else mret tt.

Definition set_major (x : Z) : Op unit :=
  modify (fun v => mkVersion x (minor v) (patch v) (preRelease v) (build v)).
Definition set_minor (x : Z) : Op unit :=
  modify (fun v => mkVersion (major v) x (patch v) (preRelease v) (build v)).
Definition set_patch (x : Z) : Op unit :=
  modify (fun v => mkVersion (major v) (minor v) x (preRelease v) (build v)).
Definition set_preRelease (l : list Identifier) : Op unit :=
  modify (fun v => mkVersion (major v) (minor v) (patch v) l (build v)).

(** [v.preRelease[i]] as a value: a panic outside [0 <= i < len]. *)
Definition preRelease_at (i : Z) : Op Identifier := fun v =>
  match (if 0 <=? i then preRelease v !! Z.to_nat i else None) with
  | Some x => (Ok x, v)
  | None => (Fault (IndexOutOfRange i (length (preRelease v))), v)
  end.

(** [v.preRelease[i] = x]: the same panic outside the bounds. *)
Definition preRelease_store (i : Z) (x : Identifier) : Op unit := fun v =>
  if (0 <=? i) && (i <? Z.of_nat (length (preRelease v)))
  then set_preRelease (<[Z.to_nat i := x]> (preRelease v)) v
  else (Fault (IndexOutOfRange i (length (preRelease v))), v).

(** The final store, and whether the computation returned. *)
Definition exec {A} (m : Op A) (v : version) : version := snd (m v).
Definition returns {A} (m : Op A) (v : version) : bool :=
  match fst (m v) with Ok _ => true | Fault _ => false end.

(** ** [semver.go] *)

Module semver.

Inductive error : Type := errors_New (msg : string).

Definition mismatch : error :=
  errors_New "the version number does not match the semantic version number, please refer to https://semver.org/lang/zh-CN/".

(** [match[i]] for the slice of a successful match, which has six entries. *)
Definition group (m : list string) (i : nat) : string := default EmptyString (m !! i).

(** [parse]: the errors of the three [ParseUint] calls are dropped, only
    their values are kept. *)
Definition parse (ver : string) : version * option error :=
  if negb (VerReg.MatchString ver) then (zero_version, Some mismatch)
  else
    let m := VerReg.FindStringSubmatch ver in
    let ma := fst (strconv.ParseUint (group m 1)) in
    let mi := fst (strconv.ParseUint (group m 2)) in
    let pa := fst (strconv.ParseUint (group m 3)) in
    let prl := if Bytes.is_empty (group m 4) then [] else parseIdentifiers (group m 4) in
    let bld := if Bytes.is_empty (group m 5) then [] else parseIdentifiers (group m 5) in
    (mkVersion ma mi pa prl bld, None).

(** One call of [log.Error]: the format and its argument. *)
Record log_entry : Type := mkLog { log_format : string; log_arg : string }.

(** [NewVersion]: the handle and what was written to the log. *)
Definition NewVersion (ver : string) : version * list log_entry :=
  let '(v, err) := parse ver in
  match err with
  | Some _ =>
      (v, [mkLog "the %s number does not match the semantic version number, please refer to https://semver.org/lang/zh-CN/" ver])
  | None => (v, [])
  end.

Definition isPreRelease : Op bool :=
  gets (fun v => bool_decide (0 < length (preRelease v))%nat).

Definition resetPreRelease : Op unit := set_preRelease [].

(** The backward loop of the [pre] case, entered with [i = k - 1]: it ends
    with [i = -1] when [k = 0], and otherwise reads [v.preRelease[i]]. *)
Fixpoint scan (k : nat) : Op Z :=
  match k with
  | O => mret (-1)
  | S k' =>
      let i := Z.of_nat k' in
      identifier ← preRelease_at i;
      if IsNumeric identifier
      then preRelease_store i
             (NewIdentifier (strconv.FormatUint (U64.incr (Num identifier)))) ;;
           mret i
      else scan k'
  end.

(** [case Patch]. *)
Definition Increment_Patch : Op unit :=
  p ← isPreRelease;
  when (negb p) (x ← gets patch; set_patch (U64.incr x)) ;;
  resetPreRelease.

(** [case pre]. *)
Definition Increment_pre (identifier : string) (identifierBase : bool) : Op unit :=
  let base := if identifierBase then "1" else "0" in
  let preReleaseIdentifiers := [NewIdentifier base] in
  p ← isPreRelease;
  if negb p then set_preRelease preReleaseIdentifiers
  else
    len ← gets (fun v => length (preRelease v));
    i ← scan (S len);
    when (i =? -1)
      (l ← gets preRelease; set_preRelease (l ++ [NewIdentifier base])) ;;
    when (negb (Bytes.is_empty identifier))
      (let prerelease := [NewIdentifier identifier] in
       let prerelease :=
         if identifierBase then prerelease ++ [NewIdentifier base] else prerelease in
       first ← preRelease_at 0;
       if Identifier_Compare first (default first (prerelease !! 0%nat)) =? 0
       then when (length prerelease =? 1)%nat (set_preRelease prerelease)
       else set_preRelease prerelease).

(** [Increment]: the calls [v.Increment(Patch, ...)] and
    [v.Increment(pre, ...)] of the first four cases run the bodies of the
    cases [Patch] and [pre].  The handle the method returns is its receiver,
    that is, the store the computation leaves. *)
Definition Increment (release : ReleaseType) (identifier : string)
    (identifierBase : bool) : Op unit :=
  match release with
  | PreMajor =>
      resetPreRelease ;;
      set_patch 0 ;;
      set_minor 0 ;;
      (x ← gets major; set_major (U64.incr x)) ;;
      Increment_pre identifier identifierBase
  | PreMinor =>
      resetPreRelease ;;
      set_patch 0 ;;
      (x ← gets minor; set_minor (U64.incr x)) ;;
      Increment_pre identifier identifierBase
  | PrePatch =>
      resetPreRelease ;;
      Increment_Patch ;;
      Increment_pre identifier identifierBase
  | PreRelease =>
      p ← isPreRelease;
      when (negb p) Increment_Patch ;;
      Increment_pre identifier identifierBase
  | Major =>
      mi ← gets minor; pa ← gets patch; p ← isPreRelease;
      when (negb (mi =? 0) || negb (pa =? 0) || negb p)
        (x ← gets major; set_major (U64.incr x)) ;;
      set_minor 0 ;;
      set_patch 0 ;;
      resetPreRelease
  | Minor =>
      pa ← gets patch; p ← isPreRelease;
      when (negb (pa =? 0) || negb p)
        (x ← gets minor; set_minor (U64.incr x)) ;;
      set_patch 0 ;;
      resetPreRelease
  | Patch => Increment_Patch
  | pre => Increment_pre identifier identifierBase
  end.

Definition versionBase (v : version) : string :=
  let buffer := EmptyString in
  let buffer := strconv.AppendUint buffer (major v) in
  let buffer := buffer +:+ "." in
  let buffer := strconv.AppendUint buffer (minor v) in
  let buffer := buffer +:+ "." in
  strconv.AppendUint buffer (patch v).

(** The two blocks of [String]: a mark, the first identifier, then every
    other one after a dot; nothing for an empty sequence. *)
Definition append_identifiers (buffer : string) (mark : string)
    (l : list Identifier) : string :=
  match l with
  | [] => buffer
  | first :: rest =>
      foldl (fun buffer x => (buffer +:+ ".") +:+ Raw x)
            ((buffer +:+ mark) +:+ Raw first) rest
  end.

(** [FinalizeVersion]. *)
Definition FinalizeVersion (v : version) : string := versionBase v.

(** Modelled from the spec: [compareVersion] is not in [semver.go].  Two
    sequences of identifiers compare element by element; when one is a
    prefix of the other the shorter one is the lesser. *)
Fixpoint compareIdentifiers (a b : list Identifier) : Z :=
  match a, b with
  | [], [] => 0
  | [], _ :: _ => -1
  | _ :: _, [] => 1
  | x :: a', y :: b' =>
      let c := Identifier_Compare x y in
      if c =? 0 then compareIdentifiers a' b' else c
  end.

(** Modelled from the spec: a version without pre-release is above one with
    a pre-release. *)
Definition comparePreRelease (a b : list Identifier) : Z :=
  match a, b with
  | [], [] => 0
  | [], _ :: _ => 1
  | _ :: _, [] => -1
  | _, _ => compareIdentifiers a b
  end.

(** Modelled from the spec: [compareVersion] compares major, minor and
    patch as numbers, then the pre-releases, and, unless [ignoreBuild],
    then the build sequences. *)
Definition compareVersion (v other : version) (ignoreBuild : bool) : Z :=
  let c := int_of_comparison (major v ?= major other) in
  if negb (c =? 0) then c else
  let c := int_of_comparison (minor v ?= minor other) in
  if negb (c =? 0) then c else
  let c := int_of_comparison (patch v ?= patch other) in
  if negb (c =? 0) then c else
  let c := comparePreRelease (preRelease v) (preRelease other) in
  if negb (c =? 0) then c else
  if ignoreBuild then 0 else compareIdentifiers (build v) (build other).

Definition Compare (v other : version) : Z := compareVersion v other true.

Definition CompareWithBuildMeta (v other : version) : Z :=
  compareVersion v other false.

(** [String]; it is declared last because its name is also that of the
    constructor of [string]. *)
Definition String (v : version) : string :=
  let buffer := versionBase v in
  let buffer := append_identifiers buffer "-" (preRelease v) in
  append_identifiers buffer "+" (build v).

End semver.

(** The accessors of the [SemVer] interface: each reads one field of the
    receiver. *)
Module accessors.

Definition Major : Op Z := gets major.
Definition Minor : Op Z := gets minor.
Definition Patch : Op Z := gets patch.
Definition PreRelease : Op (list Identifier) := gets preRelease.
Definition Build : Op (list Identifier) := gets build.

End accessors.

(** The version a literal denotes, for the worked examples. *)
Definition version_of (s : string) : version := fst (semver.parse s).

(** * Vocabulary of the statements *)

(** [m] leaves the build sequence of the store as it found it, whether it
    returns or stops with a panic. *)
Definition keeps_build {A} (m : Op A) : Prop :=
  forall v, build (exec m v) = build v.

(** What follows the first piece in a joined text. *)
Definition join_rest (sep : ascii) (l : list string) : string :=
  match l with
  | [] => EmptyString
  | _ :: _ => String sep (Bytes.join sep l)
  end.

(** The number a digit string denotes when read after the value [n]. *)
Fixpoint horner (n : Z) (s : string) : Z :=
  match s with
  | EmptyString => n
  | String c r => horner (n * 10 + Bytes.digit_val c) r
  end.

(** The number a digit string denotes, of any size. *)
Definition decimal_value (s : string) : Z := horner 0 s.

(** A digit string in numeric form starts with a digit other than zero, or is
    the one digit zero. *)
Definition leading_nonzero (s : string) : bool :=
  match s with
  | EmptyString => false
  | String c _ => negb (Ascii.eqb c "0"%char)
  end.

(** The identifiers a group gives: none when the group is absent. *)
Definition group_identifiers (o : option string) : list Identifier :=
  match o with
  | None => []
  | Some s => parseIdentifiers s
  end.

(** A three-way comparison with results -1, 0 and 1 that orders its domain:
    swapping the arguments negates the result, elements that compare equal
    are interchangeable, and below is transitive. *)
Class ThreeWay {A : Type} (cmp : A -> A -> Z) : Prop := {
  cmp_range a b : cmp a b = -1 \/ cmp a b = 0 \/ cmp a b = 1;
  cmp_antisym a b : cmp a b = - cmp b a;
  cmp_eq_l a b c : cmp a b = 0 -> cmp a c = cmp b c;
  cmp_lt_trans a b c : cmp a b = -1 -> cmp b c = -1 -> cmp a c = -1
}.

(** [first], and [second] where [first] finds no difference. *)
Definition and_then {A : Type} (first second : A -> A -> Z) (a b : A) : Z :=
  let c := first a b in if negb (c =? 0) then c else second a b.

(** A parser that refuses numbers beyond a uint64: on a text of the grammar
    with a major, minor or patch digit group whose number does not fit, it
    returns an error. *)
Definition parse_rejects_overflow (s : string) : Prop :=
  VerReg.MatchString s = true ->
  (exists i, (1 <= i <= 3)%nat /\
     U64.max < decimal_value (semver.group (VerReg.FindStringSubmatch s) i)) ->
  is_Some (snd (semver.parse s)).

(** The text one block of [String] adds for a sequence of identifiers: nothing
    for the empty sequence, else the mark and the raw tokens joined by dots. *)
Definition rendered_block (mark : ascii) (l : list Identifier) : string :=
  match l with
  | [] => EmptyString
  | _ :: _ => String mark (Bytes.join "."%char (Raw <$> l))
  end.

(** The bytes of [FinalizeVersion]: digits and the dot. *)
Definition base_char (c : ascii) : bool :=
  Bytes.is_digit c || Ascii.eqb c "."%char.

(** The version [v] with another build sequence. *)
Definition with_build (v : version) (bld : list Identifier) : version :=
  mkVersion (major v) (minor v) (patch v) (preRelease v) bld.

(** The first numeral of a fresh pre-release. *)
Definition base_identifier (identifierBase : bool) : Identifier :=
  NewIdentifier (if identifierBase then "1" else "0").

(** What one call of [Increment] comes to, case by case, read as a function
    of the version it finds; the tag is no argument of it. *)
Definition Increment_outcome (release : ReleaseType) (identifierBase : bool)
    (v : version) : result unit * version :=
  let fresh := [base_identifier identifierBase] in
  let fault :=
    (Fault (IndexOutOfRange (Z.of_nat (length (preRelease v)))
                            (length (preRelease v))), v) in
  let is_pre := match preRelease v with [] => false | _ :: _ => true end in
  match release with
  | PreMajor => (Ok tt, mkVersion (U64.incr (major v)) 0 0 fresh (build v))
  | PreMinor => (Ok tt, mkVersion (major v) (U64.incr (minor v)) 0 fresh (build v))
  | PrePatch => (Ok tt, mkVersion (major v) (minor v) (U64.incr (patch v)) fresh (build v))
  | PreRelease =>
      if is_pre then fault
      else (Ok tt, mkVersion (major v) (minor v) (U64.incr (patch v)) fresh (build v))
  | Major =>
      (Ok tt, mkVersion
                (if negb (minor v =? 0) || negb (patch v =? 0) || negb is_pre
                 then U64.incr (major v) else major v)
                0 0 [] (build v))
  | Minor =>
      (Ok tt, mkVersion (major v)
                (if negb (patch v =? 0) || negb is_pre
                 then U64.incr (minor v) else minor v)
                0 [] (build v))
  | Patch =>
      (Ok tt, mkVersion (major v) (minor v)
                (if is_pre then patch v else U64.incr (patch v)) [] (build v))
  | pre =>
      if is_pre then fault
      else (Ok tt, mkVersion (major v) (minor v) (patch v) fresh (build v))
  end.

(** * Properties *)

(** ** Machine integers *)

Lemma U64_incr_below_max x : 0 <= x < U64.max -> U64.incr x = x + 1.
Proof.
  intros H. unfold U64.incr, U64.wrap. apply Z.mod_small.
  unfold U64.max in H. lia.
Qed.

Lemma U64_incr_max : U64.incr U64.max = 0.
Proof. reflexivity. Qed.

Lemma U64_incr_range x : U64.in_range (U64.incr x).
Proof.
  unfold U64.in_range, U64.incr, U64.wrap, U64.max.
  pose proof (Z.mod_pos_bound (x + 1) U64.modulus eq_refl). lia.
Qed.

Lemma U64_incr_changes x : U64.in_range x -> U64.incr x <> x.
Proof.
  intros [H0 H1] E. destruct (decide (x = U64.max)) as [->|N].
  - discriminate E.
  - rewrite U64_incr_below_max in E by lia. lia.
Qed.

(** ** The receiver monad *)

Lemma isPreRelease_spec v :
  semver.isPreRelease v =
    (Ok (match preRelease v with [] => false | _ => true end), v).
Proof.
  unfold semver.isPreRelease, gets. destruct (preRelease v); reflexivity.
Qed.

(** Reading one past the last element is the fault of the backward loop. *)
Lemma preRelease_at_length v :
  preRelease_at (Z.of_nat (length (preRelease v))) v =
    (Fault (IndexOutOfRange (Z.of_nat (length (preRelease v))) (length (preRelease v))), v).
Proof.
  unfold preRelease_at.
  destruct (0 <=? Z.of_nat (length (preRelease v))); [|reflexivity].
  rewrite Nat2Z.id, (lookup_ge_None_2 (preRelease v)) by lia. reflexivity.
Qed.

Lemma scan_from_length v :
  semver.scan (S (length (preRelease v))) v =
    (Fault (IndexOutOfRange (Z.of_nat (length (preRelease v))) (length (preRelease v))), v).
Proof.
  cbn [semver.scan]. unfold mbind, Op_bind.
  rewrite preRelease_at_length. reflexivity.
Qed.

(** The [pre] case on a version that is already a pre-release. *)
Lemma Increment_pre_nonempty identifier identifierBase v :
  preRelease v <> [] ->
  semver.Increment_pre identifier identifierBase v =
    (Fault (IndexOutOfRange (Z.of_nat (length (preRelease v))) (length (preRelease v))), v).
Proof.
  intros Hne. unfold semver.Increment_pre.
  unfold mbind at 1. unfold Op_bind at 1. rewrite isPreRelease_spec.
  destruct (preRelease v) as [|x l] eqn:E; [done|]. cbn [negb].
  unfold mbind at 1. unfold Op_bind at 1. unfold gets at 1. cbn [fst snd].
  unfold mbind at 1. unfold Op_bind at 1.
  rewrite scan_from_length. rewrite E. reflexivity.
Qed.

(** The [pre] case on a version that is no pre-release: the tag is not read. *)
Lemma Increment_pre_empty identifier identifierBase v :
  preRelease v = [] ->
  semver.Increment_pre identifier identifierBase v =
    (Ok tt, mkVersion (major v) (minor v) (patch v)
              [NewIdentifier (if identifierBase then "1" else "0")] (build v)).
Proof.
  intros E. unfold semver.Increment_pre.
  unfold mbind, Op_bind. rewrite isPreRelease_spec, E. reflexivity.
Qed.

Lemma Increment_Patch_spec v :
  semver.Increment_Patch v =
    (Ok tt, mkVersion (major v) (minor v)
              (match preRelease v with [] => U64.incr (patch v) | _ => patch v end)
              [] (build v)).
Proof.
  unfold semver.Increment_Patch, mbind, Op_bind. rewrite isPreRelease_spec.
  destruct (preRelease v); reflexivity.
Qed.

(** ** The build sequence is a frame of every receiver operation *)

Section Frame.

Lemma keeps_build_ret {A} (a : A) : keeps_build (mret a : Op A).
Proof. intros v. reflexivity. Qed.

Lemma keeps_build_bind {A B} (m : Op A) (f : A -> Op B) :
  keeps_build m -> (forall a, keeps_build (f a)) -> keeps_build (m ≫= f).
Proof.
  intros Hm Hf v. specialize (Hm v). unfold exec, mbind, Op_bind in *.
  destruct (m v) as [[a|p] v']; cbn [snd] in *.
  - rewrite <- Hm. apply (Hf a v').
  - exact Hm.
Qed.

Lemma keeps_build_gets {A} (f : version -> A) : keeps_build (gets f).
Proof. intros v. reflexivity. Qed.

Lemma keeps_build_when c (m : Op unit) : keeps_build m -> keeps_build (when c m).
Proof. destruct c; [done|]. intros _. apply keeps_build_ret. Qed.

Lemma keeps_build_set_major x : keeps_build (set_major x).
Proof. intros v. reflexivity. Qed.

Lemma keeps_build_set_minor x : keeps_build (set_minor x).
Proof. intros v. reflexivity. Qed.

Lemma keeps_build_set_patch x : keeps_build (set_patch x).
Proof. intros v. reflexivity. Qed.

Lemma keeps_build_set_preRelease l : keeps_build (set_preRelease l).
Proof. intros v. reflexivity. Qed.

Lemma keeps_build_at i : keeps_build (preRelease_at i).
Proof.
  intros v. unfold exec, preRelease_at.
  destruct (if 0 <=? i then _ else _); reflexivity.
Qed.

Lemma keeps_build_store i x : keeps_build (preRelease_store i x).
Proof.
  intros v. unfold exec, preRelease_store.
  destruct (_ && _); reflexivity.
Qed.

Lemma keeps_build_isPreRelease : keeps_build semver.isPreRelease.
Proof. apply keeps_build_gets. Qed.

Lemma keeps_build_resetPreRelease : keeps_build semver.resetPreRelease.
Proof. apply keeps_build_set_preRelease. Qed.

Create HintDb frame.

Hint Resolve keeps_build_ret keeps_build_gets keeps_build_when
  keeps_build_set_major keeps_build_set_minor keeps_build_set_patch
  keeps_build_set_preRelease keeps_build_at keeps_build_store
  keeps_build_isPreRelease keeps_build_resetPreRelease : frame.

(** One step of the structural argument: split a sequence, decide a
    conditional, or close the goal with a primitive. *)
Ltac frame_step :=
  match goal with
  | |- keeps_build _ => solve [auto with frame]
  | |- keeps_build (_ ≫= _) => apply keeps_build_bind; [|intros ?]
  | |- keeps_build (when _ _) => apply keeps_build_when
  | |- keeps_build (if ?c then _ else _) => destruct c
  end.

Lemma keeps_build_scan k : keeps_build (semver.scan k).
Proof.
  induction k as [|k IH]; cbn [semver.scan]; repeat frame_step.
Qed.

Lemma keeps_build_Increment_Patch : keeps_build semver.Increment_Patch.
Proof. unfold semver.Increment_Patch. repeat frame_step. Qed.

Hint Resolve keeps_build_scan keeps_build_Increment_Patch : frame.

Lemma keeps_build_Increment_pre identifier identifierBase :
  keeps_build (semver.Increment_pre identifier identifierBase).
Proof. unfold semver.Increment_pre. repeat frame_step. Qed.

Hint Resolve keeps_build_Increment_pre : frame.

Lemma keeps_build_Increment release identifier identifierBase :
  keeps_build (semver.Increment release identifier identifierBase).
Proof. destruct release; cbn [semver.Increment]; repeat frame_step. Qed.

End Frame.

(** ** The increment state machine *)

(** The cases that clear the pre-release first always return: a fresh
    pre-release is the base numeral. *)
Lemma Increment_PreMajor_spec identifier identifierBase v :
  semver.Increment PreMajor identifier identifierBase v =
    (Ok tt, mkVersion (U64.incr (major v)) 0 0
              [NewIdentifier (if identifierBase then "1" else "0")] (build v)).
Proof.
  cbn [semver.Increment]. unfold mbind, Op_bind.
  cbn [semver.resetPreRelease set_preRelease set_patch set_minor set_major modify gets
       major minor patch preRelease build].
  rewrite Increment_pre_empty by reflexivity. reflexivity.
Qed.

Lemma Increment_PreMinor_spec identifier identifierBase v :
  semver.Increment PreMinor identifier identifierBase v =
    (Ok tt, mkVersion (major v) (U64.incr (minor v)) 0
              [NewIdentifier (if identifierBase then "1" else "0")] (build v)).
Proof.
  cbn [semver.Increment]. unfold mbind, Op_bind.
  cbn [semver.resetPreRelease set_preRelease set_patch set_minor set_major modify gets
       major minor patch preRelease build].
  rewrite Increment_pre_empty by reflexivity. reflexivity.
Qed.

Lemma Increment_PrePatch_spec identifier identifierBase v :
  semver.Increment PrePatch identifier identifierBase v =
    (Ok tt, mkVersion (major v) (minor v) (U64.incr (patch v))
              [NewIdentifier (if identifierBase then "1" else "0")] (build v)).
Proof.
  cbn [semver.Increment]. unfold mbind, Op_bind.
  cbn [semver.resetPreRelease set_preRelease modify].
  rewrite Increment_Patch_spec. cbn [major minor patch preRelease build].
  rewrite Increment_pre_empty by reflexivity. reflexivity.
Qed.

Lemma Increment_Major_spec identifier identifierBase v :
  semver.Increment Major identifier identifierBase v =
    (Ok tt, mkVersion
              (if negb (minor v =? 0) || negb (patch v =? 0)
                  || match preRelease v with [] => true | _ :: _ => false end
               then U64.incr (major v) else major v)
              0 0 [] (build v)).
Proof.
  cbn [semver.Increment]. unfold mbind, Op_bind, gets. rewrite isPreRelease_spec.
  destruct (preRelease v), (minor v =? 0), (patch v =? 0); reflexivity.
Qed.

Lemma Increment_Minor_spec identifier identifierBase v :
  semver.Increment Minor identifier identifierBase v =
    (Ok tt, mkVersion (major v)
              (if negb (patch v =? 0)
                  || match preRelease v with [] => true | _ :: _ => false end
               then U64.incr (minor v) else minor v)
              0 [] (build v)).
Proof.
  cbn [semver.Increment]. unfold mbind, Op_bind, gets. rewrite isPreRelease_spec.
  destruct (preRelease v), (patch v =? 0); reflexivity.
Qed.

(** [PreRelease] is [PrePatch] on a version that is no pre-release, and the
    [pre] case alone on one that is. *)
Lemma Increment_PreRelease_empty identifier identifierBase v :
  preRelease v = [] ->
  semver.Increment PreRelease identifier identifierBase v =
    (Ok tt, mkVersion (major v) (minor v) (U64.incr (patch v))
              [NewIdentifier (if identifierBase then "1" else "0")] (build v)).
Proof.
  intros E. cbn [semver.Increment].
  unfold mbind at 1. unfold Op_bind at 1. rewrite isPreRelease_spec, E.
  cbn [negb when]. unfold mbind, Op_bind.
  rewrite Increment_Patch_spec, E.
  rewrite Increment_pre_empty by reflexivity. reflexivity.
Qed.

Lemma Increment_PreRelease_nonempty identifier identifierBase v :
  preRelease v <> [] ->
  semver.Increment PreRelease identifier identifierBase v =
    semver.Increment_pre identifier identifierBase v.
Proof.
  intros Hne. cbn [semver.Increment].
  unfold mbind at 1. unfold Op_bind at 1. rewrite isPreRelease_spec.
  destruct (preRelease v) as [|x l] eqn:E; [done|].
  cbn [negb when]. unfold mbind, Op_bind, mret, Op_ret.
  destruct (semver.Increment_pre identifier identifierBase v) as [[[]|p] v'];
    reflexivity.
Qed.

(** X5.  [Increment] returns except where the backward loop runs: it panics
    exactly for [PreRelease] and [pre] on a version that is already a
    pre-release, and returns for every other release kind and version. *)
Lemma Increment_returns_iff release identifier identifierBase v :
  returns (semver.Increment release identifier identifierBase) v = true <->
  ~ ((release = PreRelease \/ release = pre) /\ preRelease v <> []).
Proof.
  unfold returns. destruct release;
    rewrite ?Increment_PreMajor_spec, ?Increment_PreMinor_spec,
            ?Increment_PrePatch_spec, ?Increment_Major_spec, ?Increment_Minor_spec;
    try (cbn [semver.Increment]; rewrite ?Increment_Patch_spec).
  1-6: split; [intros _ [[?|?] _]; discriminate | reflexivity].
  - destruct (preRelease v) as [|x l] eqn:E.
    + assert (preRelease v = []) as E' by exact E.
      fold (semver.Increment PreRelease identifier identifierBase).
      rewrite Increment_PreRelease_empty by exact E'.
      split; [intros _ [_ ?]; done | reflexivity].
    + assert (preRelease v <> []) as Hne by (rewrite E; done).
      fold (semver.Increment PreRelease identifier identifierBase).
      rewrite Increment_PreRelease_nonempty, Increment_pre_nonempty by exact Hne.
      split; [discriminate|]. intros H. destruct H. split; [left; reflexivity|].
      rewrite <- E. exact Hne.
  - destruct (preRelease v) as [|x l] eqn:E.
    + rewrite Increment_pre_empty by exact E.
      split; [intros _ [_ ?]; done | reflexivity].
    + assert (preRelease v <> []) as Hne by (rewrite E; done).
      rewrite Increment_pre_nonempty by exact Hne.
      split; [discriminate|]. intros H. destruct H. split; [right; reflexivity|].
      rewrite <- E. exact Hne.
Qed.

Lemma Increment_returns_iff_witness :
  returns (semver.Increment pre "rc" false) (version_of "1.2.3") = true /\
  ~ ((pre = PreRelease \/ pre = pre) /\ preRelease (version_of "1.2.3") <> []).
Proof.
  assert (returns (semver.Increment pre "rc" false) (version_of "1.2.3") = true)
    as H by reflexivity.
  split; [exact H|].
  exact (proj1 (Increment_returns_iff pre "rc" false (version_of "1.2.3")) H).
Defined.

Example Increment_PreMajor_1_2_3 :
  semver.String (exec (semver.Increment PreMajor EmptyString false) (version_of "1.2.3"))
    = "2.0.0-0".
Proof. vm_compute. reflexivity. Qed.

Example Increment_Minor_1_2_3 :
  semver.String (exec (semver.Increment Minor EmptyString false) (version_of "1.2.3"))
    = "1.3.0".
Proof. vm_compute. reflexivity. Qed.

(** C1.  [Increment] does not complete on every version: on a version whose
    pre-release sequence is not empty, the cases [PreRelease] and [pre] stop
    with an index-out-of-range panic, because the backward loop starts at
    [i = len(v.preRelease)] and reads [v.preRelease[i]] before it decrements
    [i].  The store is the one the call found. *)
Theorem Increment_existing_prerelease_panics :
  forall v release identifier identifierBase,
    preRelease v <> [] ->
    release = PreRelease \/ release = pre ->
    semver.Increment release identifier identifierBase v =
      (Fault (IndexOutOfRange (Z.of_nat (length (preRelease v)))
                              (length (preRelease v))), v).
Proof.
  intros v release identifier identifierBase Hne [-> | ->].
  - rewrite Increment_PreRelease_nonempty by exact Hne.
    apply Increment_pre_nonempty, Hne.
  - apply Increment_pre_nonempty, Hne.
Qed.

Lemma Increment_existing_prerelease_panics_witness :
  preRelease (version_of "1.2.3-5") <> [] /\
  returns (semver.Increment pre EmptyString false) (version_of "1.2.3-5") = false.
Proof.
  split; [discriminate|].
  unfold returns.
  rewrite (Increment_existing_prerelease_panics (version_of "1.2.3-5") pre
             EmptyString false); [reflexivity | discriminate | right; reflexivity].
Defined.

(** C2.  On a version that is no pre-release, [Increment] with [PreRelease],
    any tag and [identifierBase] false bumps patch and sets the pre-release to
    the base numeral alone: the tag is read only in the branch for a version
    that is already a pre-release, so 1.2.3 with tag alpha renders as
    1.2.4-0 and not as 1.2.4-alpha.0. *)
Theorem Increment_PreRelease_fresh_drops_tag :
  forall v tag,
    preRelease v = [] ->
    semver.Increment PreRelease tag false v =
      (Ok tt, mkVersion (major v) (minor v) (U64.incr (patch v))
                [NewIdentifier "0"] (build v)).
Proof.
  intros v tag E. apply (Increment_PreRelease_empty tag false v E).
Qed.

Lemma Increment_PreRelease_fresh_drops_tag_witness :
  preRelease (version_of "1.2.3") = [] /\
  semver.String (exec (semver.Increment PreRelease "alpha" false) (version_of "1.2.3"))
    = "1.2.4-0".
Proof.
  split; [reflexivity|].
  unfold exec.
  rewrite (Increment_PreRelease_fresh_drops_tag (version_of "1.2.3") "alpha" eq_refl).
  vm_compute. reflexivity.
Defined.

(** C3.  Incrementing 1.2.3-alpha.1 with [PreRelease] and tag alpha does not
    render 1.2.3-alpha.2: the call stops with the panic
    index out of range [2] with length 2, and the version is left at
    1.2.3-alpha.1. *)
Theorem Increment_alpha_1_panics :
  semver.Increment PreRelease "alpha" false (version_of "1.2.3-alpha.1") =
    (Fault (IndexOutOfRange 2 2), version_of "1.2.3-alpha.1") /\
  semver.String (exec (semver.Increment PreRelease "alpha" false)
                      (version_of "1.2.3-alpha.1")) = "1.2.3-alpha.1".
Proof. split; vm_compute; reflexivity. Qed.

(** C4.  For every version, [Increment] with [Patch] returns; patch is
    incremented (as a uint64) when the pre-release sequence is empty and is
    left as it is otherwise; the pre-release sequence is cleared and major,
    minor and build are unchanged.  1.2.3 becomes 1.2.4 and 1.2.3-5 becomes
    1.2.3.  Short of the last uint64, incremented means plus one. *)
Theorem Increment_Patch_correct :
  (forall v identifier identifierBase,
     semver.Increment Patch identifier identifierBase v =
       (Ok tt, mkVersion (major v) (minor v)
                 (match preRelease v with
                  | [] => U64.incr (patch v)
                  | _ :: _ => patch v
                  end)
                 [] (build v))) /\
  (forall v identifier identifierBase,
     preRelease v = [] -> 0 <= patch v < U64.max ->
     patch (exec (semver.Increment Patch identifier identifierBase) v) = patch v + 1) /\
  semver.String (exec (semver.Increment Patch EmptyString false) (version_of "1.2.3"))
    = "1.2.4" /\
  semver.String (exec (semver.Increment Patch EmptyString false) (version_of "1.2.3-5"))
    = "1.2.3".
Proof.
  split; [|split; [|split; vm_compute; reflexivity]].
  - intros v identifier identifierBase. apply Increment_Patch_spec.
  - intros v identifier identifierBase E Hp. unfold exec.
    cbn [semver.Increment]. rewrite Increment_Patch_spec, E. cbn [snd patch].
    apply U64_incr_below_max, Hp.
Qed.

Lemma Increment_Patch_correct_witness :
  preRelease (version_of "1.2.3") = [] /\
  0 <= patch (version_of "1.2.3") < U64.max /\
  patch (exec (semver.Increment Patch EmptyString false) (version_of "1.2.3")) = 4.
Proof.
  destruct Increment_Patch_correct as (_ & H & _).
  assert (0 <= patch (version_of "1.2.3") < U64.max) as Hp
    by (vm_compute; split; [discriminate|reflexivity]).
  split; [reflexivity|]. split; [exact Hp|].
  exact (H (version_of "1.2.3") EmptyString false eq_refl Hp).
Defined.

(** C5.  For every version, [Increment] with [Major] returns; major is
    incremented (as a uint64) when minor is not zero, or patch is not zero, or
    the pre-release sequence is empty, and is left as it is otherwise; minor
    and patch are zeroed, the pre-release sequence is cleared and build is
    unchanged.  1.0.0-5 becomes 1.0.0 and 1.1.0 becomes 2.0.0.  Short of the
    last uint64, incremented means plus one. *)
Theorem Increment_Major_correct :
  (forall v identifier identifierBase,
     semver.Increment Major identifier identifierBase v =
       (Ok tt, mkVersion
                 (if negb (minor v =? 0) || negb (patch v =? 0)
                     || match preRelease v with [] => true | _ :: _ => false end
                  then U64.incr (major v) else major v)
                 0 0 [] (build v))) /\
  (forall v identifier identifierBase,
     minor v <> 0 \/ patch v <> 0 \/ preRelease v = [] ->
     0 <= major v < U64.max ->
     major (exec (semver.Increment Major identifier identifierBase) v) = major v + 1) /\
  (forall v identifier identifierBase,
     minor v = 0 -> patch v = 0 -> preRelease v <> [] ->
     major (exec (semver.Increment Major identifier identifierBase) v) = major v) /\
  semver.String (exec (semver.Increment Major EmptyString false) (version_of "1.0.0-5"))
    = "1.0.0" /\
  semver.String (exec (semver.Increment Major EmptyString false) (version_of "1.1.0"))
    = "2.0.0".
Proof.
  split; [intros; apply Increment_Major_spec|].
  split; [|split; [|split; vm_compute; reflexivity]].
  - intros v identifier identifierBase Hc Hm. unfold exec.
    rewrite Increment_Major_spec. cbn [snd major].
    rewrite <- (U64_incr_below_max (major v) Hm).
    destruct (Z.eqb_spec (minor v) 0), (Z.eqb_spec (patch v) 0), (preRelease v);
      cbn [negb orb]; try reflexivity.
    destruct Hc as [?|[?|?]]; done.
  - intros v identifier identifierBase Hmi Hpa Hne. unfold exec.
    rewrite Increment_Major_spec, Hmi, Hpa. cbn [snd major].
    destruct (preRelease v); [done|reflexivity].
Qed.

Lemma Increment_Major_correct_witness :
  (minor (version_of "1.1.0") <> 0 /\
   major (exec (semver.Increment Major EmptyString false) (version_of "1.1.0")) = 2) /\
  (preRelease (version_of "1.0.0-5") <> [] /\
   major (exec (semver.Increment Major EmptyString false) (version_of "1.0.0-5")) = 1).
Proof.
  destruct Increment_Major_correct as (_ & Hup & Hkeep & _).
  assert (minor (version_of "1.1.0") <> 0) as Hmi by discriminate.
  assert (0 <= major (version_of "1.1.0") < U64.max) as Hma
    by (vm_compute; split; [discriminate|reflexivity]).
  assert (preRelease (version_of "1.0.0-5") <> []) as Hne by discriminate.
  split; split; [exact Hmi | | exact Hne |].
  - exact (Hup (version_of "1.1.0") EmptyString false (or_introl Hmi) Hma).
  - exact (Hkeep (version_of "1.0.0-5") EmptyString false eq_refl eq_refl Hne).
Defined.


(** ** Strings *)

Lemma append_nil_l s : EmptyString +:+ s = s.
Proof. reflexivity. Qed.

Lemma append_cons c s t : String c s +:+ t = String c (s +:+ t).
Proof. reflexivity. Qed.

Lemma append_nil_r s : s +:+ EmptyString = s.
Proof.
  induction s as [|c s IH]; [reflexivity|]. rewrite append_cons, IH. reflexivity.
Qed.

Lemma append_assoc s t u : (s +:+ t) +:+ u = s +:+ (t +:+ u).
Proof.
  induction s as [|c s IH]; [reflexivity|]. rewrite !append_cons, IH. reflexivity.
Qed.

Lemma string_of_list_ascii_snoc l c :
  String.string_of_list_ascii (l ++ [c]) = String.string_of_list_ascii l +:+ String c EmptyString.
Proof.
  induction l as [|a l IH]; [reflexivity|].
  cbn [String.string_of_list_ascii app]. rewrite IH. reflexivity.
Qed.

(** Induction on a string from its last byte. *)
Lemma string_rev_ind (P : string -> Prop) :
  P EmptyString ->
  (forall s c, P s -> P (s +:+ String c EmptyString)) ->
  forall s, P s.
Proof.
  intros Hnil Hsnoc s. rewrite <- (String.string_of_list_ascii_of_string s).
  induction (String.list_ascii_of_string s) as [|c l IH] using rev_ind.
  - exact Hnil.
  - rewrite string_of_list_ascii_snoc. apply Hsnoc, IH.
Qed.

Lemma all_snoc p s c :
  Bytes.all p (s +:+ String c EmptyString) = Bytes.all p s && p c.
Proof.
  induction s as [|a s IH].
  - cbn. apply andb_true_r.
  - rewrite append_cons. cbn [Bytes.all]. rewrite IH. apply andb_assoc.
Qed.

Lemma split_nonempty sep s : Bytes.split sep s <> [].
Proof.
  destruct s as [|c r]; cbn; [done|].
  destruct (Ascii.eqb c sep); [done|]. destruct (Bytes.split sep r); done.
Qed.

Lemma join_cons sep x l : Bytes.join sep (x :: l) = x +:+ join_rest sep l.
Proof.
  destruct l; cbn [Bytes.join join_rest]; [rewrite append_nil_r|]; reflexivity.
Qed.

(** Splitting a text and joining the pieces gives the text back. *)
Lemma join_split sep s : Bytes.join sep (Bytes.split sep s) = s.
Proof.
  induction s as [|c r IH]; [reflexivity|]. cbn [Bytes.split].
  pose proof (split_nonempty sep r) as Hne.
  destruct (Ascii.eqb_spec c sep) as [->|Hc].
  - rewrite join_cons. destruct (Bytes.split sep r) as [|p ps]; [done|].
    cbn [join_rest]. rewrite append_nil_l, IH. reflexivity.
  - destruct (Bytes.split sep r) as [|p ps]; [done|].
    rewrite join_cons in *. rewrite append_cons, IH. reflexivity.
Qed.

Lemma cut_spec sep s :
  s = match Bytes.cut sep s with
      | (a, None) => a
      | (a, Some b) => a +:+ String sep b
      end.
Proof.
  induction s as [|c r IH]; [reflexivity|]. cbn [Bytes.cut].
  destruct (Ascii.eqb_spec c sep) as [->|Hc]; [reflexivity|].
  destruct (Bytes.cut sep r) as [a [b|]]; rewrite ?append_cons; congruence.
Qed.

(** ** Decimal numerals *)

Lemma digit_val_range c : Bytes.is_digit c = true -> 0 <= Bytes.digit_val c <= 9.
Proof. unfold Bytes.is_digit, Bytes.digit_val. lia. Qed.

Lemma digit_char_val c : Bytes.digit_char (Bytes.digit_val c) = c.
Proof.
  unfold Bytes.digit_char, Bytes.digit_val.
  replace (48 + (Z.of_nat (nat_of_ascii c) - 48)) with (Z.of_nat (nat_of_ascii c)) by lia.
  rewrite Nat2Z.id. apply ascii_nat_embedding.
Qed.

Lemma digit_val_zero c :
  Bytes.is_digit c = true -> Bytes.digit_val c = 0 -> c = "0"%char.
Proof.
  intros _ H. rewrite <- (digit_char_val c), H. reflexivity.
Qed.

Lemma horner_ge n s : Bytes.all Bytes.is_digit s = true -> 0 <= n -> n <= horner n s.
Proof.
  revert n. induction s as [|c r IH]; intros n Hd Hn; cbn [Bytes.all horner] in *; [lia|].
  apply andb_true_iff in Hd as [Hc Hr]. apply digit_val_range in Hc.
  specialize (IH (n * 10 + Bytes.digit_val c) Hr). lia.
Qed.

Lemma horner_snoc n s c :
  horner n (s +:+ String c EmptyString) = horner n s * 10 + Bytes.digit_val c.
Proof.
  revert n. induction s as [|a s IH]; intros n; [reflexivity|].
  rewrite append_cons. cbn [horner]. apply IH.
Qed.

(** The digit loop of [ParseUint] computes the denoted number, or stops at
    [MaxUint64] with a range error when that number does not fit. *)
Lemma parse_loop_spec s : forall n,
  Bytes.all Bytes.is_digit s = true -> 0 <= n <= U64.max ->
  strconv.parse_loop n s =
    if horner n s <=? U64.max then (horner n s, None)
    else (U64.max, Some strconv.ErrRange).
Proof.
  induction s as [|c r IH]; intros n Hd Hn; cbn [strconv.parse_loop horner].
  - destruct (Z.leb_spec n U64.max); [reflexivity|lia].
  - cbn [Bytes.all] in Hd. apply andb_true_iff in Hd as [Hc Hr]. rewrite Hc. cbn [negb].
    pose proof (digit_val_range c Hc) as Hv.
    assert (0 <= n * 10 + Bytes.digit_val c) as H0 by lia.
    pose proof (horner_ge _ r Hr H0) as Hge.
    change strconv.cutoff with 1844674407370955162.
    change U64.max with 18446744073709551615 in *.
    destruct (Z.leb_spec 1844674407370955162 n).
    + destruct (Z.leb_spec (horner (n * 10 + Bytes.digit_val c) r) 18446744073709551615);
        [lia|reflexivity].
    + destruct (Z.ltb_spec 18446744073709551615 (n * 10 + Bytes.digit_val c)).
      * destruct (Z.leb_spec (horner (n * 10 + Bytes.digit_val c) r) 18446744073709551615);
          [lia|reflexivity].
      * apply IH; [exact Hr|lia].
Qed.

Lemma numeric_form_digits s :
  numeric_form s = true -> s <> EmptyString /\ Bytes.all Bytes.is_digit s = true.
Proof.
  destruct s as [|c [|d r]]; cbn [numeric_form Bytes.all]; [discriminate| |].
  - intros ->. done.
  - intros H. apply andb_true_iff in H as [H Hr]. apply andb_true_iff in H as [H _].
    split; [done|]. rewrite H. exact Hr.
Qed.

(** [ParseUint] on a digit group of the grammar: the denoted number cut at
    [MaxUint64], with an error exactly when the number does not fit. *)
Lemma ParseUint_numeric_form s :
  numeric_form s = true ->
  strconv.ParseUint s =
    if decimal_value s <=? U64.max then (decimal_value s, None)
    else (U64.max, Some strconv.ErrRange).
Proof.
  intros H. apply numeric_form_digits in H as [Hne Hd].
  destruct s as [|c r]; [done|]. unfold strconv.ParseUint, decimal_value.
  apply parse_loop_spec; [exact Hd|]. unfold U64.max, U64.modulus. lia.
Qed.

Lemma ParseUint_value s :
  numeric_form s = true ->
  fst (strconv.ParseUint s) = Z.min (decimal_value s) U64.max.
Proof.
  intros H. rewrite ParseUint_numeric_form by exact H.
  destruct (Z.leb_spec (decimal_value s) U64.max); cbn [fst]; lia.
Qed.

Lemma numeric_form_leading s :
  numeric_form s = true -> leading_nonzero s = true \/ s = "0".
Proof.
  destruct s as [|c [|d r]]; cbn [numeric_form leading_nonzero]; [discriminate| |].
  - intros _. destruct (Ascii.eqb_spec c "0"%char) as [->|]; [right|left]; reflexivity.
  - intros H. apply andb_true_iff in H as [H _]. apply andb_true_iff in H as [_ H].
    left. exact H.
Qed.

Lemma leading_nonzero_value s :
  Bytes.all Bytes.is_digit s = true -> leading_nonzero s = true -> 1 <= decimal_value s.
Proof.
  destruct s as [|c r]; [discriminate|]. cbn [Bytes.all leading_nonzero].
  intros Hd Hc. apply andb_true_iff in Hd as [Hdc Hr].
  unfold decimal_value. cbn [horner].
  pose proof (digit_val_range c Hdc).
  assert (Bytes.digit_val c <> 0) as Hnz.
  { intros E. apply (digit_val_zero c Hdc) in E. subst c. discriminate Hc. }
  pose proof (horner_ge (0 * 10 + Bytes.digit_val c) r Hr). lia.
Qed.

(** The digit loop of [FormatUint] writes a numeral in numeric form back,
    given turns enough for its value. *)
Lemma format_loop_value s :
  s <> EmptyString ->
  Bytes.all Bytes.is_digit s = true ->
  leading_nonzero s = true \/ s = "0" ->
  forall turns acc,
    (0 < turns)%nat -> decimal_value s < 10 ^ Z.of_nat turns ->
    strconv.format_loop turns (decimal_value s) acc = s +:+ acc.
Proof.
  induction s as [|s c IH] using string_rev_ind; [done|].
  intros _ Hd Hlead turns acc Hturns Hlt.
  rewrite all_snoc in Hd. apply andb_true_iff in Hd as [Hds Hdc].
  pose proof (digit_val_range c Hdc) as Hv.
  unfold decimal_value in *. rewrite horner_snoc in *.
  destruct turns as [|t]; [lia|]. cbn [strconv.format_loop].
  destruct s as [|a r].
  - cbn [horner]. replace (0 * 10 + Bytes.digit_val c) with (Bytes.digit_val c) by lia.
    destruct (Z.ltb_spec (Bytes.digit_val c) 10); [|lia].
    rewrite digit_char_val. reflexivity.
  - assert (leading_nonzero (String a r) = true) as Hl.
    { destruct Hlead as [Hl|E]; [exact Hl|].
      rewrite append_cons in E. destruct r; discriminate E. }
    pose proof (leading_nonzero_value _ Hds Hl) as Hge. unfold decimal_value in Hge.
    set (h := horner 0 (String a r)) in *.
    destruct (Z.ltb_spec (h * 10 + Bytes.digit_val c) 10); [lia|].
    replace ((h * 10 + Bytes.digit_val c) / 10) with h
      by (apply Z.div_unique with (r := Bytes.digit_val c); lia).
    replace ((h * 10 + Bytes.digit_val c) mod 10) with (Bytes.digit_val c)
      by (apply Z.mod_unique with (q := h); lia).
    rewrite digit_char_val.
    rewrite Nat2Z.inj_succ, Z.pow_succ_r in Hlt by lia.
    assert (t <> O) as Ht.
    { intros ->. change (10 ^ Z.of_nat 0) with 1 in Hlt. lia. }
    rewrite IH; [| done | exact Hds | left; exact Hl | lia | lia].
    rewrite append_assoc. reflexivity.
Qed.

(** Formatting what [ParseUint] read gives the digit group back, provided
    the denoted number fits a uint64. *)
Lemma FormatUint_ParseUint s :
  numeric_form s = true -> decimal_value s <= U64.max ->
  strconv.FormatUint (fst (strconv.ParseUint s)) = s.
Proof.
  intros Hn Hle. rewrite ParseUint_value by exact Hn.
  rewrite Z.min_l by exact Hle.
  pose proof (numeric_form_digits s Hn) as [Hne Hd].
  unfold strconv.FormatUint.
  rewrite format_loop_value; [apply append_nil_r | exact Hne | exact Hd
                             | apply numeric_form_leading, Hn | lia |].
  change U64.max with 18446744073709551615 in Hle.
  change (10 ^ Z.of_nat 20) with 100000000000000000000. lia.
Qed.

(** ** The grammar *)

(** What a successful match is made of. *)
Lemma MatchString_inv s :
  VerReg.MatchString s = true ->
  exists front core ma mi pa prl bld,
    Bytes.cut "+"%char s = (front, bld) /\
    Bytes.cut "-"%char front = (core, prl) /\
    Bytes.split "."%char core = [ma; mi; pa] /\
    numeric_form ma = true /\ numeric_form mi = true /\ numeric_form pa = true /\
    VerReg.idents_ok VerReg.prerelease_ident prl = true /\
    VerReg.idents_ok VerReg.build_ident bld = true /\
    VerReg.FindStringSubmatch s =
      [s; ma; mi; pa; default EmptyString prl; default EmptyString bld].
Proof.
  unfold VerReg.MatchString, VerReg.FindStringSubmatch.
  destruct (Bytes.cut "+"%char s) as [front bld] eqn:Hs.
  destruct (Bytes.cut "-"%char front) as [core prl] eqn:Hfront.
  destruct (Bytes.split "."%char core) as [|ma [|mi [|pa [|]]]] eqn:Hcore;
    try discriminate.
  destruct (numeric_form ma) eqn:Hma; [|discriminate].
  destruct (numeric_form mi) eqn:Hmi; [|discriminate].
  destruct (numeric_form pa) eqn:Hpa; [|discriminate].
  destruct (VerReg.idents_ok VerReg.prerelease_ident prl) eqn:Hprl; [|discriminate].
  destruct (VerReg.idents_ok VerReg.build_ident bld) eqn:Hbld; [|discriminate].
  intros _. exists front, core, ma, mi, pa, prl, bld. cbn [andb].
  repeat split; assumption.
Qed.

(** An identifier group that is present is not the empty text. *)
Lemma idents_ok_nonempty p s :
  (forall t, p t = true -> t <> EmptyString) ->
  VerReg.idents_ok p (Some s) = true -> Bytes.is_empty s = false.
Proof.
  intros Hp. destruct s as [|c r]; [|reflexivity].
  cbn. intros H. apply andb_true_iff in H as [H _]. apply Hp in H. done.
Qed.

Lemma build_ident_nonempty t : VerReg.build_ident t = true -> t <> EmptyString.
Proof. destruct t; [discriminate|done]. Qed.

Lemma prerelease_ident_nonempty t : VerReg.prerelease_ident t = true -> t <> EmptyString.
Proof. destruct t; [discriminate|done]. Qed.

(** ** Parsing and rendering *)

(** [parse] on a text of the grammar, in terms of the pieces of the match. *)
Lemma parse_match s front core ma mi pa prl bld :
  Bytes.cut "+"%char s = (front, bld) ->
  Bytes.cut "-"%char front = (core, prl) ->
  Bytes.split "."%char core = [ma; mi; pa] ->
  VerReg.idents_ok VerReg.prerelease_ident prl = true ->
  VerReg.idents_ok VerReg.build_ident bld = true ->
  VerReg.FindStringSubmatch s =
    [s; ma; mi; pa; default EmptyString prl; default EmptyString bld] ->
  semver.parse s =
    (mkVersion (fst (strconv.ParseUint ma)) (fst (strconv.ParseUint mi))
               (fst (strconv.ParseUint pa))
               (group_identifiers prl) (group_identifiers bld), None).
Proof.
  intros Hs Hfront Hcore Hprl Hbld Hm.
  unfold semver.parse, VerReg.MatchString. rewrite Hm. cbn [negb].
  unfold semver.group. cbn [lookup list_lookup default from_option id].
  f_equal. f_equal.
  - destruct prl as [p|]; [|reflexivity]. cbn [default from_option id group_identifiers].
    rewrite (idents_ok_nonempty _ p prerelease_ident_nonempty Hprl). reflexivity.
  - destruct bld as [b|]; [|reflexivity]. cbn [default from_option id group_identifiers].
    rewrite (idents_ok_nonempty _ b build_ident_nonempty Hbld). reflexivity.
Qed.

Lemma foldl_render acc l :
  foldl (fun buffer x => (buffer +:+ ".") +:+ Raw x) acc (NewIdentifier <$> l) =
    acc +:+ join_rest "."%char l.
Proof.
  revert acc. induction l as [|y l IH]; intros acc.
  - cbn. symmetry. apply append_nil_r.
  - rewrite fmap_cons. cbn [foldl]. rewrite IH. cbn [NewIdentifier Raw join_rest].
    rewrite join_cons, !append_assoc. reflexivity.
Qed.

(** A block of [String] writes the mark and the text the identifiers were
    split from. *)
Lemma append_identifiers_parse buffer mark o :
  semver.append_identifiers buffer (String mark EmptyString) (group_identifiers o) =
    buffer +:+ match o with None => EmptyString | Some s => String mark s end.
Proof.
  destruct o as [s|]; cbn [group_identifiers semver.append_identifiers].
  - unfold parseIdentifiers. pose proof (join_split "."%char s) as Hj.
    pose proof (split_nonempty "."%char s) as Hne.
    destruct (Bytes.split "."%char s) as [|x l]; [done|].
    rewrite fmap_cons. cbn [semver.append_identifiers].
    rewrite foldl_render. cbn [NewIdentifier Raw].
    rewrite join_cons in Hj. rewrite !append_assoc. rewrite Hj. reflexivity.
  - symmetry. apply append_nil_r.
Qed.

(** X16.  Whatever the text, major, minor and patch of the version [parse]
    returns are within a uint64: a digit group beyond it is cut, never
    stored as a larger or negative number. *)
Lemma parse_well_formed s : well_formed (fst (semver.parse s)).
Proof.
  assert (forall t, numeric_form t = true ->
            U64.in_range (fst (strconv.ParseUint t))) as Hr.
  { intros t Ht. rewrite (ParseUint_value t Ht).
    apply numeric_form_digits in Ht as [_ Hd].
    pose proof (horner_ge 0 t Hd). unfold decimal_value, U64.in_range.
    change U64.max with 18446744073709551615. lia. }
  destruct (VerReg.MatchString s) eqn:Hmatch.
  - destruct (MatchString_inv s Hmatch)
      as (front & core & ma & mi & pa & prl & bld &
          Hs & Hfront & Hcore & Hma & Hmi & Hpa & Hprl & Hbld & Hm).
    rewrite (parse_match s front core ma mi pa prl bld) by assumption.
    repeat split; cbn [fst major minor patch]; apply Hr; assumption.
  - unfold semver.parse. rewrite Hmatch. cbn [negb fst].
    repeat split; cbn; discriminate.
Qed.

(** C8 (as amended).  For every text of the grammar whose major, minor and
    patch digit groups denote numbers that fit a uint64, rendering the parsed
    version with [String] gives the text back. *)
Theorem String_parse_roundtrip :
  forall s,
    VerReg.MatchString s = true ->
    (forall i, (1 <= i <= 3)%nat ->
       decimal_value (semver.group (VerReg.FindStringSubmatch s) i) <= U64.max) ->
    semver.String (fst (semver.parse s)) = s.
Proof.
  intros s Hmatch Hfit.
  destruct (MatchString_inv s Hmatch)
    as (front & core & ma & mi & pa & prl & bld &
        Hs & Hfront & Hcore & Hma & Hmi & Hpa & Hprl & Hbld & Hm).
  rewrite (parse_match s front core ma mi pa prl bld) by assumption.
  rewrite Hm in Hfit.
  pose proof (Hfit 1%nat ltac:(lia)) as H1.
  pose proof (Hfit 2%nat ltac:(lia)) as H2.
  pose proof (Hfit 3%nat ltac:(lia)) as H3.
  cbn in H1, H2, H3.
  cbn [fst]. unfold semver.String, semver.versionBase, strconv.AppendUint.
  cbn [major minor patch preRelease build].
  rewrite !FormatUint_ParseUint by assumption.
  rewrite !append_identifiers_parse.
  pose proof (join_split "."%char core) as Hj. rewrite Hcore in Hj.
  cbn [Bytes.join] in Hj.
  pose proof (cut_spec "-"%char front) as Ef. rewrite Hfront in Ef.
  pose proof (cut_spec "+"%char s) as Es. rewrite Hs in Es.
  rewrite append_nil_l.
  replace ((((ma +:+ ".") +:+ mi) +:+ ".") +:+ pa) with core
    by (rewrite <- Hj, !append_assoc; reflexivity).
  destruct prl as [p|], bld as [b|]; subst front; rewrite ?append_nil_r; congruence.
Qed.

Lemma String_parse_roundtrip_witness :
  VerReg.MatchString "1.2.3-alpha.1+build.007" = true /\
  semver.String (fst (semver.parse "1.2.3-alpha.1+build.007")) = "1.2.3-alpha.1+build.007".
Proof.
  split; [reflexivity|].
  apply (String_parse_roundtrip "1.2.3-alpha.1+build.007"); [reflexivity|].
  intros i Hi.
  destruct i as [|[|[|[|i]]]]; try lia; vm_compute; discriminate.
Defined.

(** C6 fails at a major of 2^64: no error, and the field is [MaxUint64]. *)
Lemma parse_overflow_saturates :
  ~ parse_rejects_overflow "18446744073709551616.0.0" /\
  semver.parse "18446744073709551616.0.0" = (mkVersion U64.max 0 0 [] [], None).
Proof.
  split; [|vm_compute; reflexivity].
  intros H. destruct H as [e He].
  - reflexivity.
  - exists 1%nat. split; [lia|]. vm_compute. reflexivity.
  - vm_compute in He. discriminate He.
Qed.

(** C6 (as amended).  On every text of the grammar [parse] returns no error,
    also when a digit group denotes a number beyond a uint64: major, minor
    and patch hold the denoted number cut at [MaxUint64], so a number that
    fits is stored as it is and one that does not is neither wrapped around
    nor refused. *)
Theorem parse_saturates_digit_groups :
  forall s,
    VerReg.MatchString s = true ->
    let m := VerReg.FindStringSubmatch s in
    let v := fst (semver.parse s) in
    snd (semver.parse s) = None /\
    major v = Z.min (decimal_value (semver.group m 1)) U64.max /\
    minor v = Z.min (decimal_value (semver.group m 2)) U64.max /\
    patch v = Z.min (decimal_value (semver.group m 3)) U64.max.
Proof.
  intros s Hmatch.
  destruct (MatchString_inv s Hmatch)
    as (front & core & ma & mi & pa & prl & bld &
        Hs & Hfront & Hcore & Hma & Hmi & Hpa & Hprl & Hbld & Hm).
  cbv zeta. rewrite (parse_match s front core ma mi pa prl bld) by assumption.
  rewrite Hm. unfold semver.group.
  cbn [fst snd major minor patch lookup list_lookup default from_option id].
  rewrite !ParseUint_value by assumption. done.
Qed.

Lemma parse_saturates_digit_groups_witness :
  VerReg.MatchString "1.18446744073709551616.3" = true /\
  semver.parse "1.18446744073709551616.3" = (mkVersion 1 U64.max 3 [] [], None).
Proof.
  split; [reflexivity|].
  pose proof (parse_saturates_digit_groups "1.18446744073709551616.3" eq_refl) as H.
  cbv zeta in H. destruct H as (He & Hma & Hmi & Hpa).
  destruct (semver.parse "1.18446744073709551616.3") as [[ma mi pa prl bld] e] eqn:E.
  cbn [fst snd major minor patch] in *. subst e ma mi pa.
  vm_compute in E. injection E as <- <-. reflexivity.
Defined.

(** C8 (as stated) fails at a major of 2^64: the text is of the grammar and
    is rendered with a different major. *)
Lemma String_parse_overflow :
  VerReg.MatchString "18446744073709551616.0.0" = true /\
  semver.String (fst (semver.parse "18446744073709551616.0.0"))
    = "18446744073709551615.0.0" /\
  semver.String (fst (semver.parse "18446744073709551616.0.0"))
    <> "18446744073709551616.0.0".
Proof. repeat split; vm_compute; [reflexivity..|discriminate]. Qed.

(** C7.  [parse] returns an error exactly when the text is not of the grammar;
    with the error comes the zero-valued version; and [NewVersion], whose
    result has no error part, returns that zero-valued handle after one log
    entry.  Neither not-a-version nor 1.2 is of the grammar. *)
Theorem parse_error_iff_mismatch :
  (forall s,
     (is_Some (snd (semver.parse s)) <-> VerReg.MatchString s = false) /\
     (VerReg.MatchString s = false ->
        semver.parse s = (zero_version, Some semver.mismatch) /\
        fst (semver.NewVersion s) = zero_version /\
        length (snd (semver.NewVersion s)) = 1%nat)) /\
  VerReg.MatchString "not-a-version" = false /\
  VerReg.MatchString "1.2" = false.
Proof.
  split; [|split; reflexivity].
  intros s. unfold semver.NewVersion, semver.parse.
  destruct (VerReg.MatchString s); cbn [negb fst snd].
  - split; [|discriminate]. split; [intros [e He]|]; discriminate.
  - split; [split; [reflexivity|eauto]|]. intros _. done.
Qed.

Lemma parse_error_iff_mismatch_witness :
  VerReg.MatchString "1.2" = false /\
  semver.parse "1.2" = (zero_version, Some semver.mismatch) /\
  fst (semver.NewVersion "1.2") = zero_version.
Proof.
  split; [reflexivity|].
  destruct parse_error_iff_mismatch as [H _].
  destruct (H "1.2") as [_ H2]. destruct (H2 eq_refl) as (Hp & Hn & _).
  split; assumption.
Defined.

(** ** Ordering *)

Section ThreeWayFacts.

Context {A : Type} (cmp : A -> A -> Z) `{!ThreeWay cmp}.

Lemma cmp_eq_r a b c : cmp b c = 0 -> cmp a b = cmp a c.
Proof.
  intros H. rewrite (cmp_antisym a b), (cmp_antisym a c).
  f_equal. apply cmp_eq_l, H.
Qed.

Lemma cmp_le_trans a b c : cmp a b <= 0 -> cmp b c <= 0 -> cmp a c <= 0.
Proof.
  intros Hab Hbc.
  destruct (cmp_range a b) as [Eab|[Eab|Eab]]; [| |lia].
  - destruct (cmp_range b c) as [Ebc|[Ebc|Ebc]]; [| |lia].
    + rewrite (cmp_lt_trans a b c Eab Ebc). lia.
    + rewrite <- (cmp_eq_r a b c Ebc). lia.
  - rewrite (cmp_eq_l a b c Eab). exact Hbc.
Qed.

(** The comparison of keys orders what carries them. *)
Lemma ThreeWay_on {B : Type} (f : B -> A) : ThreeWay (fun x y => cmp (f x) (f y)).
Proof.
  split; intros.
  - apply cmp_range.
  - apply cmp_antisym.
  - by apply cmp_eq_l.
  - by eapply cmp_lt_trans.
Qed.

End ThreeWayFacts.

(** A comparison that agrees everywhere with one that orders its domain
    orders it too. *)
Lemma ThreeWay_proper {A : Type} (f g : A -> A -> Z) :
  (forall a b, g a b = f a b) -> ThreeWay f -> ThreeWay g.
Proof.
  intros E Hf. split; intros *; rewrite !E.
  - apply cmp_range.
  - apply cmp_antisym.
  - apply cmp_eq_l.
  - apply cmp_lt_trans.
Qed.

Lemma and_then_cases {A : Type} (first second : A -> A -> Z) a b :
  (first a b <> 0 /\ and_then first second a b = first a b) \/
  (first a b = 0 /\ and_then first second a b = second a b).
Proof.
  unfold and_then. destruct (Z.eqb_spec (first a b) 0); [right|left]; done.
Qed.

#[global] Instance ThreeWay_and_then {A : Type} (first second : A -> A -> Z)
  (Hfirst : ThreeWay first) (Hsecond : ThreeWay second) :
  ThreeWay (and_then first second).
Proof.
  split.
  - intros a b. destruct (and_then_cases first second a b) as [[_ ->]|[_ ->]];
      apply cmp_range.
  - intros a b. pose proof (cmp_antisym (cmp := first) a b).
    pose proof (cmp_antisym (cmp := second) a b).
    destruct (and_then_cases first second a b) as [[? ->]|[? ->]],
             (and_then_cases first second b a) as [[? ->]|[? ->]]; lia.
  - intros a b c Hab.
    assert (first a b = 0 /\ second a b = 0) as [H1 H2].
    { destruct (and_then_cases first second a b) as [[? E]|[? E]];
        rewrite E in Hab; done. }
    unfold and_then.
    rewrite (cmp_eq_l (cmp := first) a b c H1), (cmp_eq_l (cmp := second) a b c H2).
    reflexivity.
  - intros a b c Hab Hbc.
    destruct (and_then_cases first second a b) as [[Nab Eab]|[Zab Eab]];
      rewrite Eab in Hab;
      destruct (and_then_cases first second b c) as [[Nbc Ebc]|[Zbc Ebc]];
      rewrite Ebc in Hbc; unfold and_then.
    + rewrite (cmp_lt_trans (cmp := first) a b c Hab Hbc). reflexivity.
    + rewrite <- (cmp_eq_r first a b c Zbc), Hab. reflexivity.
    + rewrite (cmp_eq_l (cmp := first) a b c Zab), Hbc. reflexivity.
    + rewrite (cmp_eq_l (cmp := first) a b c Zab), Zbc. cbn.
      apply (cmp_lt_trans (cmp := second) a b c Hab Hbc).
Qed.

(** Numbers. *)
#[global] Instance ThreeWay_Z : ThreeWay (fun a b : Z => int_of_comparison (a ?= b)).
Proof.
  split; intros a b; [| |intros c|intros c];
    destruct (Z.compare_spec a b); try destruct (Z.compare_spec b c);
    try destruct (Z.compare_spec a c); try destruct (Z.compare_spec b a);
    cbn; intros; lia || (subst; lia).
Qed.

(** Byte strings. *)
Lemma ascii_compare_spec (x y : ascii) :
  CompareSpec (x = y) (N_of_ascii x < N_of_ascii y)%N (N_of_ascii y < N_of_ascii x)%N
              (Ascii.compare x y).
Proof.
  unfold Ascii.compare. destruct (N.compare_spec (N_of_ascii x) (N_of_ascii y)) as [E| |];
    constructor; try assumption.
  rewrite <- (ascii_N_embedding x), <- (ascii_N_embedding y), E. reflexivity.
Qed.

Lemma string_compare_refl s : String.compare s s = Eq.
Proof.
  induction s as [|c s IH]; [reflexivity|]. cbn.
  destruct (ascii_compare_spec c c); [exact IH|lia|lia].
Qed.

Lemma string_compare_lt_trans a : forall b c,
  String.compare a b = Lt -> String.compare b c = Lt -> String.compare a c = Lt.
Proof.
  induction a as [|x a IH]; intros [|y b] [|z c]; cbn; try done.
  destruct (ascii_compare_spec x y), (ascii_compare_spec y z), (ascii_compare_spec x z);
    subst; try done; try lia.
  apply IH.
Qed.

#[global] Instance ThreeWay_string :
  ThreeWay (fun a b : string => int_of_comparison (String.compare a b)).
Proof.
  split.
  - intros a b. destruct (String.compare a b); cbn; lia.
  - intros a b. rewrite String.compare_antisym. destruct (String.compare b a); cbn; lia.
  - intros a b c H. destruct (String.compare a b) eqn:E; try discriminate H.
    apply String.compare_eq_iff in E. subst. reflexivity.
  - intros a b c Hab Hbc.
    destruct (String.compare a b) eqn:Eab; try discriminate Hab.
    destruct (String.compare b c) eqn:Ebc; try discriminate Hbc.
    rewrite (string_compare_lt_trans a b c Eab Ebc). reflexivity.
Qed.

(** Identifiers. *)
#[global] Instance ThreeWay_Identifier : ThreeWay Identifier_Compare.
Proof.
  pose proof ThreeWay_Z as HZ. pose proof ThreeWay_string as HS.
  split; unfold Identifier_Compare.
  - intros a b. destruct (IsNumeric a), (IsNumeric b); try lia.
    + apply (cmp_range (cmp := fun a b : Z => int_of_comparison (a ?= b))).
    + apply (cmp_range (cmp := fun a b : string => int_of_comparison (String.compare a b))).
  - intros a b. destruct (IsNumeric a), (IsNumeric b); try lia.
    + apply (cmp_antisym (cmp := fun a b : Z => int_of_comparison (a ?= b))).
    + apply (cmp_antisym (cmp := fun a b : string => int_of_comparison (String.compare a b))).
  - intros a b c. destruct (IsNumeric a), (IsNumeric b), (IsNumeric c); try done.
    + apply (cmp_eq_l (cmp := fun a b : Z => int_of_comparison (a ?= b))).
    + apply (cmp_eq_l (cmp := fun a b : string => int_of_comparison (String.compare a b))).
  - intros a b c. destruct (IsNumeric a), (IsNumeric b), (IsNumeric c); try done.
    + apply (cmp_lt_trans (cmp := fun a b : Z => int_of_comparison (a ?= b))).
    + apply (cmp_lt_trans (cmp := fun a b : string => int_of_comparison (String.compare a b))).
Qed.

(** Sequences of identifiers. *)
Lemma compareIdentifiers_cons x a y b :
  semver.compareIdentifiers (x :: a) (y :: b) =
    and_then (fun _ _ => Identifier_Compare x y)
             (fun _ _ => semver.compareIdentifiers a b) tt tt.
Proof.
  unfold and_then. cbn [semver.compareIdentifiers].
  destruct (Identifier_Compare x y =? 0); reflexivity.
Qed.

Lemma compareIdentifiers_cons_cases x a y b :
  (Identifier_Compare x y <> 0 /\
   semver.compareIdentifiers (x :: a) (y :: b) = Identifier_Compare x y) \/
  (Identifier_Compare x y = 0 /\
   semver.compareIdentifiers (x :: a) (y :: b) = semver.compareIdentifiers a b).
Proof.
  rewrite compareIdentifiers_cons.
  apply (and_then_cases (fun _ _ : unit => Identifier_Compare x y)
                        (fun _ _ : unit => semver.compareIdentifiers a b) tt tt).
Qed.

#[global] Instance ThreeWay_compareIdentifiers : ThreeWay semver.compareIdentifiers.
Proof.
  split.
  - intros a. induction a as [|x a IH]; intros [|y b];
      try (cbn [semver.compareIdentifiers]; lia).
    destruct (compareIdentifiers_cons_cases x a y b) as [[_ ->]|[_ ->]];
      [apply cmp_range | apply IH].
  - intros a. induction a as [|x a IH]; intros [|y b]; try reflexivity.
    pose proof (cmp_antisym (cmp := Identifier_Compare) x y).
    destruct (compareIdentifiers_cons_cases x a y b) as [[? ->]|[? ->]],
             (compareIdentifiers_cons_cases y b x a) as [[? ->]|[? ->]];
      try lia. apply IH.
  - intros a. induction a as [|x a IH]; intros [|y b] [|z c]; try done.
    intros Hab.
    assert (Identifier_Compare x y = 0 /\ semver.compareIdentifiers a b = 0) as [H1 H2].
    { destruct (compareIdentifiers_cons_cases x a y b) as [[? E]|[? E]];
        rewrite E in Hab; done. }
    rewrite !compareIdentifiers_cons. unfold and_then.
    rewrite (cmp_eq_l (cmp := Identifier_Compare) x y z H1), (IH b c H2). reflexivity.
  - intros a. induction a as [|x a IH]; intros [|y b] [|z c]; try done.
    intros Hab Hbc.
    destruct (compareIdentifiers_cons_cases x a y b) as [[Nab Eab]|[Zab Eab]];
      rewrite Eab in Hab;
      destruct (compareIdentifiers_cons_cases y b z c) as [[Nbc Ebc]|[Zbc Ebc]];
      rewrite Ebc in Hbc; rewrite compareIdentifiers_cons; unfold and_then.
    + rewrite (cmp_lt_trans (cmp := Identifier_Compare) x y z Hab Hbc). reflexivity.
    + rewrite <- (cmp_eq_r Identifier_Compare x y z Zbc), Hab. reflexivity.
    + rewrite (cmp_eq_l (cmp := Identifier_Compare) x y z Zab), Hbc. reflexivity.
    + rewrite (cmp_eq_l (cmp := Identifier_Compare) x y z Zab), Zbc. cbn.
      apply (IH b c Hab Hbc).
Qed.

(** Pre-release sequences: the empty one is above all others. *)
#[global] Instance ThreeWay_comparePreRelease : ThreeWay semver.comparePreRelease.
Proof.
  split.
  - intros [|x a] [|y b]; cbn [semver.comparePreRelease]; try lia. apply cmp_range.
  - intros [|x a] [|y b]; cbn [semver.comparePreRelease]; try lia. apply cmp_antisym.
  - intros [|x a] [|y b] [|z c]; cbn [semver.comparePreRelease]; try done.
    apply cmp_eq_l.
  - intros [|x a] [|y b] [|z c]; cbn [semver.comparePreRelease]; try done.
    apply cmp_lt_trans.
Qed.

#[global] Instance ThreeWay_equal {A : Type} : ThreeWay (fun _ _ : A => 0).
Proof. split; intros; lia || reflexivity. Qed.

(** [compareVersion] is a chain of comparisons of the fields. *)
Lemma compareVersion_chain ignoreBuild v other :
  semver.compareVersion v other ignoreBuild =
    and_then (fun a b => int_of_comparison (major a ?= major b))
      (and_then (fun a b => int_of_comparison (minor a ?= minor b))
         (and_then (fun a b => int_of_comparison (patch a ?= patch b))
            (and_then (fun a b => semver.comparePreRelease (preRelease a) (preRelease b))
               (if ignoreBuild then fun _ _ => 0
                else fun a b => semver.compareIdentifiers (build a) (build b)))))
      v other.
Proof. unfold semver.compareVersion, and_then. destruct ignoreBuild; reflexivity. Qed.

Lemma ThreeWay_compareVersion ignoreBuild :
  ThreeWay (fun v other => semver.compareVersion v other ignoreBuild).
Proof.
  pose proof (ThreeWay_on (fun a b : Z => int_of_comparison (a ?= b)) major) as Hma.
  pose proof (ThreeWay_on (fun a b : Z => int_of_comparison (a ?= b)) minor) as Hmi.
  pose proof (ThreeWay_on (fun a b : Z => int_of_comparison (a ?= b)) patch) as Hpa.
  pose proof (ThreeWay_on semver.comparePreRelease preRelease) as Hprl.
  pose proof (ThreeWay_on semver.compareIdentifiers build) as Hbld.
  cbv beta in Hma, Hmi, Hpa.
  assert (ThreeWay (if ignoreBuild then fun _ _ : version => 0
                    else fun a b => semver.compareIdentifiers (build a) (build b)))
    as Hlast.
  { destruct ignoreBuild; [apply ThreeWay_equal|assumption]. }
  eapply ThreeWay_proper; [intros v other; apply compareVersion_chain|].
  exact (ThreeWay_and_then _ _ Hma
           (ThreeWay_and_then _ _ Hmi
              (ThreeWay_and_then _ _ Hpa
                 (ThreeWay_and_then _ _ Hprl Hlast)))).
Qed.

(** C9.  [Compare] orders all versions: its result is one of -1, 0 and 1;
    swapping the arguments negates it; and it is transitive, for below, for
    equal, and for below or equal. *)
Theorem Compare_total_order :
  forall a b c,
    (semver.Compare a b = -1 \/ semver.Compare a b = 0 \/ semver.Compare a b = 1) /\
    semver.Compare a b = - semver.Compare b a /\
    (semver.Compare a b = -1 -> semver.Compare b c = -1 -> semver.Compare a c = -1) /\
    (semver.Compare a b = 0 -> semver.Compare b c = 0 -> semver.Compare a c = 0) /\
    (semver.Compare a b <= 0 -> semver.Compare b c <= 0 -> semver.Compare a c <= 0).
Proof.
  intros a b c. pose proof (ThreeWay_compareVersion true) as H.
  unfold semver.Compare. repeat split.
  - apply (cmp_range (cmp := fun v other => semver.compareVersion v other true)).
  - apply (cmp_antisym (cmp := fun v other => semver.compareVersion v other true)).
  - apply (cmp_lt_trans (cmp := fun v other => semver.compareVersion v other true)).
  - intros Hab Hbc.
    rewrite (cmp_eq_l (cmp := fun v other => semver.compareVersion v other true) a b c Hab).
    exact Hbc.
  - apply (cmp_le_trans (fun v other => semver.compareVersion v other true)).
Qed.

Lemma Compare_total_order_witness :
  semver.Compare (version_of "1.2.3-alpha") (version_of "1.2.3-alpha.1") = -1 /\
  semver.Compare (version_of "1.2.3-alpha.1") (version_of "1.2.3") = -1 /\
  semver.Compare (version_of "1.2.3-alpha") (version_of "1.2.3") = -1.
Proof.
  assert (semver.Compare (version_of "1.2.3-alpha") (version_of "1.2.3-alpha.1") = -1)
    as Hab by reflexivity.
  assert (semver.Compare (version_of "1.2.3-alpha.1") (version_of "1.2.3") = -1)
    as Hbc by reflexivity.
  destruct (Compare_total_order (version_of "1.2.3-alpha")
              (version_of "1.2.3-alpha.1") (version_of "1.2.3"))
    as (_ & _ & Hlt & _ & _).
  split; [exact Hab|]. split; [exact Hbc|]. exact (Hlt Hab Hbc).
Defined.

(** * Further properties *)

(** ** Numerals written by [FormatUint] *)

Lemma digit_char_digit u : 0 <= u <= 9 -> Bytes.is_digit (Bytes.digit_char u) = true.
Proof.
  intros H.
  assert (u = 0 \/ u = 1 \/ u = 2 \/ u = 3 \/ u = 4 \/ u = 5 \/ u = 6 \/ u = 7
          \/ u = 8 \/ u = 9) as Hc by lia.
  repeat (destruct Hc as [->|Hc]; [reflexivity|]). subst u. reflexivity.
Qed.

Lemma digit_val_char u : 0 <= u <= 9 -> Bytes.digit_val (Bytes.digit_char u) = u.
Proof.
  intros H.
  assert (u = 0 \/ u = 1 \/ u = 2 \/ u = 3 \/ u = 4 \/ u = 5 \/ u = 6 \/ u = 7
          \/ u = 8 \/ u = 9) as Hc by lia.
  repeat (destruct Hc as [->|Hc]; [reflexivity|]). subst u. reflexivity.
Qed.

Lemma digit_char_zero u : 1 <= u <= 9 -> Ascii.eqb (Bytes.digit_char u) "0"%char = false.
Proof.
  intros H.
  assert (u = 1 \/ u = 2 \/ u = 3 \/ u = 4 \/ u = 5 \/ u = 6 \/ u = 7
          \/ u = 8 \/ u = 9) as Hc by lia.
  repeat (destruct Hc as [->|Hc]; [reflexivity|]). subst u. reflexivity.
Qed.

Lemma leading_nonzero_snoc s c :
  s <> EmptyString ->
  leading_nonzero (s +:+ String c EmptyString) = leading_nonzero s.
Proof. destruct s; [done|reflexivity]. Qed.

Lemma numeric_form_intro s :
  Bytes.all Bytes.is_digit s = true ->
  leading_nonzero s = true \/ s = "0" ->
  numeric_form s = true.
Proof.
  intros Hd [Hl| ->]; [|reflexivity].
  destruct s as [|c [|d r]]; [discriminate Hl| |].
  - cbn [Bytes.all] in Hd. apply andb_true_iff in Hd as [Hc _]. exact Hc.
  - cbn [Bytes.all leading_nonzero numeric_form] in *.
    apply andb_true_iff in Hd as [Hc Hr]. rewrite Hc, Hl, Hr. reflexivity.
Qed.

(** The digit loop of [FormatUint] writes, in front of [acc], the numeral of
    [u] in numeric form. *)
Lemma format_loop_spec turns : forall u acc,
  (0 < turns)%nat -> 0 <= u < 10 ^ Z.of_nat turns ->
  exists s,
    strconv.format_loop turns u acc = s +:+ acc /\
    Bytes.all Bytes.is_digit s = true /\
    (leading_nonzero s = true \/ s = "0") /\
    (0 < u -> leading_nonzero s = true) /\
    decimal_value s = u.
Proof.
  induction turns as [|t IH]; intros u acc Ht Hu; [lia|].
  cbn [strconv.format_loop]. destruct (Z.ltb_spec u 10) as [Hlt|Hge].
  - exists (String (Bytes.digit_char u) EmptyString).
    split; [reflexivity|]. split.
    { cbn [Bytes.all]. rewrite digit_char_digit by lia. reflexivity. }
    assert (0 < u -> leading_nonzero (String (Bytes.digit_char u) EmptyString) = true)
      as Hpos.
    { intros Hp. cbn [leading_nonzero]. rewrite digit_char_zero by lia. reflexivity. }
    split; [|split; [exact Hpos|]].
    + destruct (decide (u = 0)) as [->|Hn]; [right; reflexivity|left; apply Hpos; lia].
    + unfold decimal_value. cbn [horner]. rewrite digit_val_char by lia. lia.
  - rewrite Nat2Z.inj_succ, Z.pow_succ_r in Hu by lia.
    pose proof (Z.div_mod u 10 ltac:(lia)) as Hdm.
    pose proof (Z.mod_pos_bound u 10 ltac:(lia)) as Hm.
    assert (1 <= u / 10 < 10 ^ Z.of_nat t) as Hq by lia.
    assert (t <> O) as Ht0.
    { intros ->. change (10 ^ Z.of_nat 0) with 1 in Hq. lia. }
    destruct (IH (u / 10) (String (Bytes.digit_char (u mod 10)) acc))
      as (s & Hs & Hd & Hl & Hp & Hv); [lia|lia|].
    assert (s <> EmptyString) as Hne.
    { intros ->. specialize (Hp ltac:(lia)). discriminate Hp. }
    exists (s +:+ String (Bytes.digit_char (u mod 10)) EmptyString).
    split; [rewrite Hs, append_assoc; reflexivity|].
    split; [rewrite all_snoc, Hd, digit_char_digit by lia; reflexivity|].
    rewrite leading_nonzero_snoc by exact Hne.
    split; [left; apply Hp; lia|]. split; [intros _; apply Hp; lia|].
    unfold decimal_value in *. rewrite horner_snoc, Hv, digit_val_char by lia. lia.
Qed.

(** [FormatUint] writes a uint64 as a numeral in numeric form that denotes
    it. *)
Lemma FormatUint_numeric u :
  U64.in_range u ->
  numeric_form (strconv.FormatUint u) = true /\
  decimal_value (strconv.FormatUint u) = u.
Proof.
  intros [H0 H1]. unfold strconv.FormatUint.
  destruct (format_loop_spec 20 u EmptyString) as (s & Hs & Hd & Hl & _ & Hv).
  - lia.
  - change U64.max with 18446744073709551615 in H1.
    change (10 ^ Z.of_nat 20) with 100000000000000000000. lia.
  - rewrite Hs, append_nil_r. split; [apply numeric_form_intro; assumption|exact Hv].
Qed.

(** Reading what [FormatUint] wrote gives the number back, without error. *)
Lemma ParseUint_FormatUint u :
  U64.in_range u -> strconv.ParseUint (strconv.FormatUint u) = (u, None).
Proof.
  intros Hu. destruct (FormatUint_numeric u Hu) as [Hn Hv].
  rewrite ParseUint_numeric_form by exact Hn. rewrite Hv.
  destruct Hu as [_ Hu]. destruct (Z.leb_spec u U64.max); [reflexivity|lia].
Qed.

(** ** Texts without a separator *)

Lemma all_append p s t : Bytes.all p (s +:+ t) = Bytes.all p s && Bytes.all p t.
Proof.
  induction s as [|c s IH]; [reflexivity|].
  rewrite append_cons. cbn [Bytes.all]. rewrite IH. apply andb_assoc.
Qed.

Lemma all_impl (p q : ascii -> bool) s :
  (forall c, p c = true -> q c = true) ->
  Bytes.all p s = true -> Bytes.all q s = true.
Proof.
  intros Hpq. induction s as [|c s IH]; [done|]. cbn [Bytes.all].
  intros H. apply andb_true_iff in H as [Hc Hs].
  rewrite (Hpq c Hc), (IH Hs). reflexivity.
Qed.

Lemma cut_absent sep s :
  Bytes.all (fun c => negb (Ascii.eqb c sep)) s = true -> Bytes.cut sep s = (s, None).
Proof.
  induction s as [|c s IH]; [reflexivity|]. cbn [Bytes.all Bytes.cut].
  intros H. apply andb_true_iff in H as [Hc Hs].
  apply negb_true_iff in Hc. rewrite Hc, (IH Hs). reflexivity.
Qed.

Lemma split_absent sep s :
  Bytes.all (fun c => negb (Ascii.eqb c sep)) s = true -> Bytes.split sep s = [s].
Proof.
  induction s as [|c s IH]; [reflexivity|]. cbn [Bytes.all Bytes.split].
  intros H. apply andb_true_iff in H as [Hc Hs].
  apply negb_true_iff in Hc. rewrite Hc, (IH Hs). reflexivity.
Qed.

Lemma split_append sep a rest :
  Bytes.all (fun c => negb (Ascii.eqb c sep)) a = true ->
  Bytes.split sep (a +:+ String sep rest) = a :: Bytes.split sep rest.
Proof.
  induction a as [|c a IH].
  - intros _. rewrite append_nil_l. cbn [Bytes.split].
    rewrite Ascii.eqb_refl. reflexivity.
  - cbn [Bytes.all]. intros H. apply andb_true_iff in H as [Hc Ha].
    apply negb_true_iff in Hc. rewrite append_cons. cbn [Bytes.split].
    rewrite Hc, (IH Ha). reflexivity.
Qed.

Lemma digit_not_sep sep c :
  Bytes.is_digit sep = false -> Bytes.is_digit c = true -> negb (Ascii.eqb c sep) = true.
Proof.
  intros Hs Hc. apply negb_true_iff. destruct (Ascii.eqb_spec c sep) as [->|]; congruence.
Qed.

Lemma base_char_not_sep sep c :
  base_char sep = false -> base_char c = true -> negb (Ascii.eqb c sep) = true.
Proof.
  intros Hs Hc. apply negb_true_iff. destruct (Ascii.eqb_spec c sep) as [->|]; congruence.
Qed.

(** ** The three-number text *)

(** The text of three digit groups joined by dots is of the grammar, with the
    groups as major, minor and patch and no further group. *)
Lemma FindStringSubmatch_base a b c :
  numeric_form a = true -> numeric_form b = true -> numeric_form c = true ->
  VerReg.FindStringSubmatch (a +:+ "." +:+ b +:+ "." +:+ c) =
    [a +:+ "." +:+ b +:+ "." +:+ c; a; b; c; EmptyString; EmptyString].
Proof.
  intros Ha Hb Hc.
  pose proof (numeric_form_digits a Ha) as [_ Da].
  pose proof (numeric_form_digits b Hb) as [_ Db].
  pose proof (numeric_form_digits c Hc) as [_ Dc].
  set (s := a +:+ "." +:+ b +:+ "." +:+ c).
  assert (Bytes.all base_char s = true) as Hs.
  { unfold s. rewrite !all_append. cbn [Bytes.all].
    rewrite !(all_impl Bytes.is_digit base_char) by
      (assumption || (intros x Hx; unfold base_char; rewrite Hx; reflexivity)).
    reflexivity. }
  unfold VerReg.FindStringSubmatch.
  rewrite (cut_absent "+"%char s)
    by (apply (all_impl base_char); [intros x; apply base_char_not_sep; reflexivity|exact Hs]).
  rewrite (cut_absent "-"%char s)
    by (apply (all_impl base_char); [intros x; apply base_char_not_sep; reflexivity|exact Hs]).
  unfold s.
  change (a +:+ "." +:+ b +:+ "." +:+ c)
    with (a +:+ String "."%char (b +:+ String "."%char c)).
  rewrite split_append
    by (apply (all_impl Bytes.is_digit); [intros x; apply digit_not_sep; reflexivity|exact Da]).
  rewrite split_append
    by (apply (all_impl Bytes.is_digit); [intros x; apply digit_not_sep; reflexivity|exact Db]).
  rewrite split_absent
    by (apply (all_impl Bytes.is_digit); [intros x; apply digit_not_sep; reflexivity|exact Dc]).
  rewrite Ha, Hb, Hc. reflexivity.
Qed.

Lemma versionBase_text v :
  semver.versionBase v =
    strconv.FormatUint (major v) +:+ "." +:+ strconv.FormatUint (minor v)
      +:+ "." +:+ strconv.FormatUint (patch v).
Proof.
  unfold semver.versionBase, strconv.AppendUint.
  rewrite append_nil_l, !append_assoc. reflexivity.
Qed.

(** ** The state machine as a function of the version *)

(** Every case of [Increment], computed through the receiver operations,
    comes to [Increment_outcome]. *)
Lemma Increment_is_outcome release identifier identifierBase v :
  semver.Increment release identifier identifierBase v =
    Increment_outcome release identifierBase v.
Proof.
  unfold Increment_outcome, base_identifier. destruct release.
  - rewrite Increment_Major_spec. destruct (preRelease v); reflexivity.
  - rewrite Increment_Minor_spec. destruct (preRelease v); reflexivity.
  - cbn [semver.Increment]. rewrite Increment_Patch_spec.
    destruct (preRelease v); reflexivity.
  - apply Increment_PreMajor_spec.
  - apply Increment_PreMinor_spec.
  - apply Increment_PrePatch_spec.
  - destruct (preRelease v) as [|x l] eqn:E.
    + apply Increment_PreRelease_empty, E.
    + assert (preRelease v <> []) as Hne by (rewrite E; done).
      rewrite Increment_PreRelease_nonempty, Increment_pre_nonempty by exact Hne.
      rewrite E. reflexivity.
  - destruct (preRelease v) as [|x l] eqn:E.
    + apply Increment_pre_empty, E.
    + assert (preRelease v <> []) as Hne by (rewrite E; done).
      rewrite Increment_pre_nonempty by exact Hne. rewrite E. reflexivity.
Qed.

(** The store after a call, for the versions the call is made on. *)
Lemma exec_Increment release identifier identifierBase v :
  exec (semver.Increment release identifier identifierBase) v =
    snd (Increment_outcome release identifierBase v).
Proof. unfold exec. rewrite Increment_is_outcome. reflexivity. Qed.

Lemma returns_Increment release identifier identifierBase v :
  returns (semver.Increment release identifier identifierBase) v =
    match fst (Increment_outcome release identifierBase v) with
    | Ok _ => true
    | Fault _ => false
    end.
Proof. unfold returns. rewrite Increment_is_outcome. reflexivity. Qed.

(** C10.  For every version and every release kind, the internal [pre]
    included, [Increment] neither writes nor reads the build sequence: the
    build sequence after the call is the one before it, whether the call
    returns or panics; and on the same version with any other build sequence
    the call has the same outcome (the same return or the same panic) and
    leaves the same major, minor, patch and pre-release, next to that other
    build sequence. *)
Theorem Increment_keeps_build :
  forall v release identifier identifierBase,
    build (exec (semver.Increment release identifier identifierBase) v) = build v /\
    forall bld,
      semver.Increment release identifier identifierBase (with_build v bld) =
        (fst (semver.Increment release identifier identifierBase v),
         with_build (exec (semver.Increment release identifier identifierBase) v) bld).
Proof.
  intros v release identifier identifierBase.
  split; [apply keeps_build_Increment|].
  intros bld. unfold exec. rewrite !Increment_is_outcome.
  destruct v as [ma mi pa prl bld0].
  unfold Increment_outcome, with_build.
  cbn [major minor patch preRelease build].
  destruct release, prl; reflexivity.
Qed.

(** ** The remaining release kinds *)

(** X1.  For every version, tag and base flag, [Increment] with [PreMajor]
    returns: major is incremented (as a uint64), minor and patch are zeroed,
    the pre-release becomes the base numeral alone (1 under the flag, else
    0) whatever it was before, and build is unchanged. *)
Theorem Increment_PreMajor_correct :
  forall v identifier identifierBase,
    semver.Increment PreMajor identifier identifierBase v =
      (Ok tt, mkVersion (U64.incr (major v)) 0 0
                [NewIdentifier (if identifierBase then "1" else "0")] (build v)).
Proof. intros. apply Increment_PreMajor_spec. Qed.

(** X2.  For every version, tag and base flag, [Increment] with [PreMinor]
    returns: minor is incremented (as a uint64), patch is zeroed, major and
    build are unchanged, and the pre-release becomes the base numeral
    alone. *)
Theorem Increment_PreMinor_correct :
  forall v identifier identifierBase,
    semver.Increment PreMinor identifier identifierBase v =
      (Ok tt, mkVersion (major v) (U64.incr (minor v)) 0
                [NewIdentifier (if identifierBase then "1" else "0")] (build v)).
Proof. intros. apply Increment_PreMinor_spec. Qed.

(** X3.  For every version, tag and base flag, [Increment] with [PrePatch]
    returns: patch is incremented (as a uint64) also when the version was a
    pre-release, since the pre-release is cleared first; major, minor and
    build are unchanged, and the pre-release becomes the base numeral
    alone. *)
Theorem Increment_PrePatch_correct :
  forall v identifier identifierBase,
    semver.Increment PrePatch identifier identifierBase v =
      (Ok tt, mkVersion (major v) (minor v) (U64.incr (patch v))
                [NewIdentifier (if identifierBase then "1" else "0")] (build v)).
Proof. intros. apply Increment_PrePatch_spec. Qed.

(** X4.  For every version, [Increment] with [Minor] returns: minor is
    incremented (as a uint64) when patch is not zero or the pre-release
    sequence is empty, and is left as it is for a pre-release of shape
    x.y.0; patch is zeroed, the pre-release is cleared, major and build are
    unchanged. *)
Theorem Increment_Minor_correct :
  forall v identifier identifierBase,
    semver.Increment Minor identifier identifierBase v =
      (Ok tt, mkVersion (major v)
                (if negb (patch v =? 0)
                    || match preRelease v with [] => true | _ :: _ => false end
                 then U64.incr (minor v) else minor v)
                0 [] (build v)).
Proof. intros. apply Increment_Minor_spec. Qed.

(** ** What a call can and cannot do *)

(** X6.  A call of [Increment] that panics has changed nothing: the version
    is the one the call found. *)
Theorem Increment_panic_keeps_version :
  forall v release identifier identifierBase,
    returns (semver.Increment release identifier identifierBase) v = false ->
    exec (semver.Increment release identifier identifierBase) v = v.
Proof.
  intros v release identifier identifierBase.
  rewrite returns_Increment, exec_Increment. unfold Increment_outcome.
  destruct release, (preRelease v); cbn [fst snd]; (discriminate || reflexivity).
Qed.

Lemma Increment_panic_keeps_version_witness :
  returns (semver.Increment PreRelease "rc" true) (version_of "2.0.0-rc.1+x") = false /\
  exec (semver.Increment PreRelease "rc" true) (version_of "2.0.0-rc.1+x")
    = version_of "2.0.0-rc.1+x".
Proof.
  assert (returns (semver.Increment PreRelease "rc" true) (version_of "2.0.0-rc.1+x")
          = false) as H by reflexivity.
  split; [exact H|].
  exact (Increment_panic_keeps_version (version_of "2.0.0-rc.1+x") PreRelease "rc" true H).
Defined.

(** X7.  The tag has no effect: for every release kind, base flag and
    version, two calls of [Increment] that differ only in the tag have the
    same outcome and leave the same version. *)
Theorem Increment_ignores_tag :
  forall v release identifier identifier' identifierBase,
    semver.Increment release identifier identifierBase v =
    semver.Increment release identifier' identifierBase v.
Proof. intros. rewrite !Increment_is_outcome. reflexivity. Qed.

(** X8.  [Increment] keeps major, minor and patch within a uint64: from a
    well-formed version every call, returning or not, leaves a well-formed
    version. *)
Theorem Increment_keeps_well_formed :
  forall v release identifier identifierBase,
    well_formed v ->
    well_formed (exec (semver.Increment release identifier identifierBase) v).
Proof.
  intros v release identifier identifierBase (Hma & Hmi & Hpa).
  assert (U64.in_range 0) as H0 by (split; [lia|discriminate]).
  rewrite exec_Increment. unfold Increment_outcome, well_formed.
  destruct release, (preRelease v); cbn [fst snd major minor patch];
    refine (conj _ (conj _ _));
    repeat match goal with
           | |- context [if ?c then _ else _] => destruct c
           end;
    first [assumption | apply U64_incr_range].
Qed.

Lemma Increment_keeps_well_formed_witness :
  well_formed (version_of "18446744073709551615.2.3") /\
  well_formed (exec (semver.Increment Major EmptyString false)
                    (version_of "18446744073709551615.2.3")).
Proof.
  assert (well_formed (version_of "18446744073709551615.2.3")) as H.
  { repeat split; vm_compute; discriminate. }
  split; [exact H|].
  exact (Increment_keeps_well_formed _ Major EmptyString false H).
Defined.

(** ** Calls in sequence *)

(** X9.  A release kind after its pre-release kind gives the release the
    pre-release announced, without a second bump: [Major] after [PreMajor]
    is major plus one, [Minor] after [PreMinor] is minor plus one, [Patch]
    after [PrePatch] is patch plus one (as uint64), with no pre-release. *)
Theorem release_after_prerelease :
  forall v identifier identifierBase identifier' identifierBase',
    exec (semver.Increment Major identifier' identifierBase')
         (exec (semver.Increment PreMajor identifier identifierBase) v)
      = mkVersion (U64.incr (major v)) 0 0 [] (build v) /\
    exec (semver.Increment Minor identifier' identifierBase')
         (exec (semver.Increment PreMinor identifier identifierBase) v)
      = mkVersion (major v) (U64.incr (minor v)) 0 [] (build v) /\
    exec (semver.Increment Patch identifier' identifierBase')
         (exec (semver.Increment PrePatch identifier identifierBase) v)
      = mkVersion (major v) (minor v) (U64.incr (patch v)) [] (build v).
Proof.
  intros. rewrite !exec_Increment. repeat split; reflexivity.
Qed.

(** X10.  A pre-release cannot be continued: whatever the version, a call
    with [PreRelease] that follows a call with [PreMajor], [PreMinor],
    [PrePatch] or [PreRelease] panics. *)
Theorem PreRelease_after_prerelease_panics :
  forall v identifier identifierBase identifier' identifierBase',
    returns (semver.Increment PreRelease identifier' identifierBase')
            (exec (semver.Increment PreMajor identifier identifierBase) v) = false /\
    returns (semver.Increment PreRelease identifier' identifierBase')
            (exec (semver.Increment PreMinor identifier identifierBase) v) = false /\
    returns (semver.Increment PreRelease identifier' identifierBase')
            (exec (semver.Increment PrePatch identifier identifierBase) v) = false /\
    returns (semver.Increment PreRelease identifier' identifierBase')
            (exec (semver.Increment PreRelease identifier identifierBase) v) = false.
Proof.
  intros. rewrite !returns_Increment, !exec_Increment.
  repeat split; try reflexivity.
  unfold Increment_outcome. destruct (preRelease v) eqn:E; cbn [fst snd preRelease].
  - reflexivity.
  - rewrite E. reflexivity.
Qed.

(** X11.  After a call with [Major], [Minor] or [Patch] the version is no
    pre-release, so the next call of [Increment] returns, whatever its
    release kind. *)
Theorem Increment_after_release_returns :
  forall v release identifier identifierBase identifier' identifierBase',
    returns (semver.Increment release identifier' identifierBase')
            (exec (semver.Increment Major identifier identifierBase) v) = true /\
    returns (semver.Increment release identifier' identifierBase')
            (exec (semver.Increment Minor identifier identifierBase) v) = true /\
    returns (semver.Increment release identifier' identifierBase')
            (exec (semver.Increment Patch identifier identifierBase) v) = true.
Proof.
  intros. rewrite !returns_Increment, !exec_Increment.
  repeat split; destruct release; reflexivity.
Qed.

(** ** Rendering *)

Lemma foldl_render_raw acc l :
  foldl (fun buffer x => (buffer +:+ ".") +:+ Raw x) acc l =
    acc +:+ join_rest "."%char (Raw <$> l).
Proof.
  revert acc. induction l as [|y l IH]; intros acc.
  - cbn. symmetry. apply append_nil_r.
  - rewrite fmap_cons. cbn [foldl]. rewrite IH. cbn [join_rest].
    rewrite join_cons, !append_assoc. reflexivity.
Qed.

Lemma append_identifiers_block buffer mark l :
  semver.append_identifiers buffer (String mark EmptyString) l =
    buffer +:+ rendered_block mark l.
Proof.
  destruct l as [|x l]; cbn [semver.append_identifiers rendered_block].
  - symmetry. apply append_nil_r.
  - rewrite foldl_render_raw, fmap_cons, join_cons, !append_assoc. reflexivity.
Qed.

(** X12.  [String] is the text of [FinalizeVersion], then, for a pre-release,
    a hyphen and the raw tokens of the pre-release joined by dots, then, with
    build identifiers, a plus and their raw tokens joined by dots; an empty
    sequence adds nothing, not even its mark. *)
Theorem String_is_base_then_blocks :
  forall v,
    semver.String v =
      semver.FinalizeVersion v
        +:+ rendered_block "-"%char (preRelease v)
        +:+ rendered_block "+"%char (build v).
Proof.
  intros v. unfold semver.String, semver.FinalizeVersion.
  rewrite !append_identifiers_block, append_assoc. reflexivity.
Qed.

Lemma FinalizeVersion_base_chars v :
  well_formed v -> Bytes.all base_char (semver.FinalizeVersion v) = true.
Proof.
  intros (Hma & Hmi & Hpa). unfold semver.FinalizeVersion.
  rewrite versionBase_text, !all_append. cbn [Bytes.all].
  assert (forall u, U64.in_range u ->
            Bytes.all base_char (strconv.FormatUint u) = true) as H.
  { intros u Hu. destruct (FormatUint_numeric u Hu) as [Hn _].
    apply numeric_form_digits in Hn as [_ Hd].
    apply (all_impl Bytes.is_digit); [|exact Hd].
    intros x Hx. unfold base_char. rewrite Hx. reflexivity. }
  rewrite !H by assumption. reflexivity.
Qed.

(** X13.  The text of [FinalizeVersion] of a well-formed version consists of
    digits and dots only: it has no hyphen and no plus, whatever the
    pre-release and build sequences are. *)
Theorem FinalizeVersion_digits_and_dots :
  forall v,
    well_formed v ->
    Bytes.all base_char (semver.FinalizeVersion v) = true /\
    Bytes.all (fun c => negb (Ascii.eqb c "-"%char) && negb (Ascii.eqb c "+"%char))
              (semver.FinalizeVersion v) = true.
Proof.
  intros v Hv. pose proof (FinalizeVersion_base_chars v Hv) as H.
  split; [exact H|]. apply (all_impl base_char); [|exact H].
  intros x Hx.
  rewrite (base_char_not_sep "-"%char x eq_refl Hx),
          (base_char_not_sep "+"%char x eq_refl Hx). reflexivity.
Qed.

Lemma FinalizeVersion_digits_and_dots_witness :
  well_formed (version_of "10.0.7-rc.1+exp.sha") /\
  Bytes.all base_char (semver.FinalizeVersion (version_of "10.0.7-rc.1+exp.sha")) = true.
Proof.
  assert (well_formed (version_of "10.0.7-rc.1+exp.sha")) as H.
  { repeat split; vm_compute; discriminate. }
  split; [exact H|].
  exact (proj1 (FinalizeVersion_digits_and_dots _ H)).
Defined.

(** Parsing the three-number text of a well-formed version. *)
Lemma parse_FinalizeVersion_eq v :
  well_formed v ->
  semver.parse (semver.FinalizeVersion v) =
    (mkVersion (major v) (minor v) (patch v) [] [], None).
Proof.
  intros (Hma & Hmi & Hpa). unfold semver.FinalizeVersion.
  rewrite versionBase_text.
  destruct (FormatUint_numeric _ Hma) as [Na _].
  destruct (FormatUint_numeric _ Hmi) as [Nb _].
  destruct (FormatUint_numeric _ Hpa) as [Nc _].
  pose proof (FindStringSubmatch_base _ _ _ Na Nb Nc) as Hm.
  unfold semver.parse, VerReg.MatchString. rewrite Hm. cbn [negb].
  unfold semver.group. cbn [lookup list_lookup default from_option id Bytes.is_empty].
  rewrite !ParseUint_FormatUint by assumption. reflexivity.
Qed.

(** X14.  Rendering and parsing are inverse on the three numbers: for a
    well-formed version, [parse] of its [FinalizeVersion] text returns no
    error and the version with the same major, minor and patch and no
    identifiers; so a well-formed version without identifiers is what
    [parse] makes of its [String]. *)
Theorem parse_FinalizeVersion :
  forall v,
    well_formed v ->
    semver.parse (semver.FinalizeVersion v) =
      (mkVersion (major v) (minor v) (patch v) [] [], None) /\
    (preRelease v = [] -> build v = [] ->
     semver.parse (semver.String v) = (v, None)).
Proof.
  intros v Hv. split; [apply parse_FinalizeVersion_eq, Hv|].
  intros Hp Hb.
  assert (semver.String v = semver.FinalizeVersion v) as ->.
  { unfold semver.String, semver.FinalizeVersion. rewrite Hp, Hb. reflexivity. }
  rewrite parse_FinalizeVersion_eq by exact Hv.
  destruct v as [ma mi pa prl bld]. cbn in Hp, Hb. subst. reflexivity.
Qed.

Lemma parse_FinalizeVersion_witness :
  well_formed (mkVersion 3 0 18446744073709551615 [NewIdentifier "beta"] []) /\
  semver.parse
    (semver.FinalizeVersion (mkVersion 3 0 18446744073709551615 [NewIdentifier "beta"] []))
    = (mkVersion 3 0 18446744073709551615 [] [], None) /\
  semver.parse (semver.String (mkVersion 0 0 0 [] [])) = (mkVersion 0 0 0 [] [], None).
Proof.
  assert (well_formed (mkVersion 3 0 18446744073709551615 [NewIdentifier "beta"] []))
    as H by (repeat split; vm_compute; discriminate).
  assert (well_formed (mkVersion 0 0 0 [] [])) as H0
    by (repeat split; vm_compute; discriminate).
  split; [exact H|]. split.
  - exact (proj1 (parse_FinalizeVersion _ H)).
  - exact (proj2 (parse_FinalizeVersion _ H0) eq_refl eq_refl).
Defined.

(** X15.  The three-number text determines the three numbers: two
    well-formed versions with the same [FinalizeVersion] text have the same
    major, minor and patch. *)
Theorem FinalizeVersion_injective :
  forall v w,
    well_formed v -> well_formed w ->
    semver.FinalizeVersion v = semver.FinalizeVersion w ->
    major v = major w /\ minor v = minor w /\ patch v = patch w.
Proof.
  intros v w Hv Hw E.
  pose proof (parse_FinalizeVersion_eq v Hv) as Pv.
  pose proof (parse_FinalizeVersion_eq w Hw) as Pw.
  rewrite E, Pw in Pv. injection Pv as -> -> ->. done.
Qed.

Lemma FinalizeVersion_injective_witness :
  semver.FinalizeVersion (version_of "1.2.3-alpha") = semver.FinalizeVersion (version_of "1.2.3+b") /\
  major (version_of "1.2.3-alpha") = major (version_of "1.2.3+b").
Proof.
  assert (well_formed (version_of "1.2.3-alpha")) as Hv
    by (repeat split; vm_compute; discriminate).
  assert (well_formed (version_of "1.2.3+b")) as Hw
    by (repeat split; vm_compute; discriminate).
  assert (semver.FinalizeVersion (version_of "1.2.3-alpha")
          = semver.FinalizeVersion (version_of "1.2.3+b")) as E by reflexivity.
  split; [exact E|].
  destruct (FinalizeVersion_injective _ _ Hv Hw E) as [H _]. exact H.
Defined.

(** X17.  A call of [Increment] that returns is never without effect: from a
    well-formed version it leaves a version that differs from the one it
    found, in a number or in the pre-release sequence. *)
Theorem Increment_return_changes_version :
  forall v release identifier identifierBase,
    well_formed v ->
    returns (semver.Increment release identifier identifierBase) v = true ->
    exec (semver.Increment release identifier identifierBase) v <> v.
Proof.
  intros [ma mi pa prl bld] release identifier identifierBase (Hma & Hmi & Hpa).
  cbn [major minor patch] in Hma, Hmi, Hpa.
  pose proof (U64_incr_changes ma Hma) as Cma.
  pose proof (U64_incr_changes mi Hmi) as Cmi.
  pose proof (U64_incr_changes pa Hpa) as Cpa.
  rewrite returns_Increment, exec_Increment. unfold Increment_outcome.
  cbn [major minor patch preRelease build].
  destruct release, prl as [|x l]; cbn [fst snd negb orb]; intros Hr E;
    try discriminate Hr;
    rewrite ?orb_true_r, ?orb_false_r in E;
    repeat match type of E with
           | context [if ?c then _ else _] => destruct c
           end;
    injection E; intros; congruence.
Qed.

Lemma Increment_return_changes_version_witness :
  well_formed (version_of "1.0.0-5") /\
  returns (semver.Increment Major EmptyString false) (version_of "1.0.0-5") = true /\
  exec (semver.Increment Major EmptyString false) (version_of "1.0.0-5")
    <> version_of "1.0.0-5".
Proof.
  assert (well_formed (version_of "1.0.0-5")) as H
    by (repeat split; vm_compute; discriminate).
  assert (returns (semver.Increment Major EmptyString false) (version_of "1.0.0-5") = true)
    as Hr by reflexivity.
  split; [exact H|]. split; [exact Hr|].
  exact (Increment_return_changes_version _ Major EmptyString false H Hr).
Defined.
